(** * Minesweeper knowledge base (week1/minesweeper/minesweeper.py)

    A shallow embedding of the classes [Minesweeper] (the part the agent
    is fed by), [Sentence] and [MinesweeperAI], and the properties of the
    knowledge-base inference they implement.

    Python values are modelled as follows.
    - A cell is a pair of Python integers: [Z * Z].
    - A Python [set] of cells is a [gset cell]; a Python [list] is a [list].
    - [Sentence.count] is a Python integer ([Z]): nothing in the code keeps
      it non-negative.
    - Objects mutated in place are modelled by explicit state passing: a
      method of [MinesweeperAI] is a function from the agent's state to the
      agent's state.  Every [Sentence] owns its cell set ([__init__] copies
      with [set(cells)]) and is referenced from [self.knowledge] only, so a
      sentence object is identified with its position in that list.
    - A method that may return [None] returns an [option]; an operation that
      may raise returns an [outcome]. *)

From stdpp Require Import base numbers list sets gmap fin_sets.

Open Scope Z_scope.

Abbreviation cell := (Z * Z)%type.

(** ** Python primitives *)

(** The one exception the modelled operations can raise. *)
Inductive exn := IndexError.

Inductive outcome (A : Type) :=
| Return (a : A)
| Raise (e : exn).
Arguments Return {A} a.
Arguments Raise {A} e.

Module Py.

(** [l[i]] for a non-negative index [i]. *)
Definition getitem {A} (l : list A) (i : nat) : outcome A :=
  match l !! i with
  | Some x => Return x
  | None => Raise IndexError
  end.

(** [random.choice(l)]: the random source is an explicit number [r]; an
    empty sequence raises [IndexError]. *)
Definition random_choice {A} (r : nat) (l : list A) : outcome A :=
  match l with
  | [] => Raise IndexError
  | _ => getitem l (r mod length l)%nat
  end.

(** The two nested loops
    [for i in range(cell[0] - 1, cell[0] + 2):
       for j in range(cell[1] - 1, cell[1] + 2): body]
    threading the variables the body assigns. *)
Definition for_block {A} (c : cell) (body : A → Z → Z → A) (a : A) : A :=
  foldl (λ a i, foldl (λ a j, body a i j) a (seqZ (c.2 - 1) 3))
        a (seqZ (c.1 - 1) 3).

(** [for i in range(h): for j in range(w): body]. *)
Definition for_grid {A} (h w : Z) (body : A → Z → Z → A) (a : A) : A :=
  foldl (λ a i, foldl (λ a j, body a i j) a (seqZ 0 w)) a (seqZ 0 h).

End Py.

(** ** class Minesweeper (the board the agent is fed by) *)

Module Minesweeper.

Record t := mk {
  height : Z;
  width : Z;
  board : list (list bool)
}.

(** [self.board[i][j]] for indices within bounds; [__init__] builds
    [height] rows of [width] entries, so a lookup within bounds succeeds. *)
Definition board_at (g : t) (i j : Z) : bool :=
  default false (board g !! Z.to_nat i ≫= λ row, row !! Z.to_nat j).

Definition nearby_mines (g : t) (c : cell) : Z :=
  Py.for_block c
    (λ count i j,
       if decide ((i, j) = c) then count
       else if decide ((0 ≤ i < height g) ∧ (0 ≤ j < width g))
            then if board_at g i j then count + 1 else count
            else count)
    0.

End Minesweeper.

(** ** class Sentence *)

Module Sentence.

Record t := mk {
  cells : gset cell;
  count : Z
}.

(** [__eq__] compares the cell sets and the counts: equality of records. *)
Global Instance eq_dec : EqDecision t.
Proof. solve_decision. Defined.

(** [if len(self.cells) == self.count: return self.cells]; falling off
    the end returns [None]. *)
Definition known_mines (s : t) : option (gset cell) :=
  if decide (Z.of_nat (size (cells s)) = count s) then Some (cells s) else None.

(** [if self.count == 0: return self.cells]. *)
Definition known_safes (s : t) : option (gset cell) :=
  if decide (count s = 0) then Some (cells s) else None.

(** [set.remove] is reached only under the membership test, where it
    cannot raise [KeyError]. *)
Definition mark_mine (c : cell) (s : t) : t :=
  if decide (c ∈ cells s)
  then {| cells := cells s ∖ {[c]}; count := count s - 1 |}
  else s.

Definition mark_safe (c : cell) (s : t) : t :=
  if decide (c ∈ cells s)
  then {| cells := cells s ∖ {[c]}; count := count s |}
  else s.

End Sentence.

(** ** class MinesweeperAI *)

Module MinesweeperAI.

Record t := mk {
  height : Z;
  width : Z;
  moves_made : gset cell;
  mines : gset cell;
  safes : gset cell;
  knowledge : list Sentence.t
}.

Global Instance eq_dec : EqDecision t.
Proof. solve_decision. Defined.

(** [__init__] *)
Definition init (h w : Z) : t := mk h w ∅ ∅ ∅ [].

Definition mark_mine (c : cell) (st : t) : t :=
  {| height := height st; width := width st;
     moves_made := moves_made st;
     mines := mines st ∪ {[c]};
     safes := safes st;
     knowledge := Sentence.mark_mine c <$> knowledge st |}.

Definition mark_safe (c : cell) (st : t) : t :=
  {| height := height st; width := width st;
     moves_made := moves_made st;
     mines := mines st;
     safes := safes st ∪ {[c]};
     knowledge := Sentence.mark_safe c <$> knowledge st |}.

(** *** add_knowledge, lines 195-216: the move, and the new sentence *)

(** Body of the neighbour loop; the accumulator holds the local
    variables [neighbors] and [count]. *)
Definition visit_neighbor (h w : Z) (moves mns : gset cell)
    (acc : gset cell * Z) (i j : Z) : gset cell * Z :=
  if decide (i >= 0 ∧ j >= 0 ∧ i < h ∧ j < w) then
    let neighbors :=
      if decide (((i, j) ∉ moves) ∧ ((i, j) ∉ mns))
      then acc.1 ∪ {[(i, j)]} else acc.1 in
    let count :=
      if decide ((i, j) ∈ mns) then acc.2 - 1 else acc.2 in
    (neighbors, count)
  else acc.

Definition add_new_sentence (c : cell) (count : Z) (st : t) : t :=
  let moves := moves_made st ∪ {[c]} in
  let sfs := safes st ∪ {[c]} in
  let nc := Py.for_block c (visit_neighbor (height st) (width st) moves (mines st))
              (∅, count) in
  {| height := height st; width := width st;
     moves_made := moves;
     mines := mines st;
     safes := sfs;
     knowledge := knowledge st ++ [Sentence.mk nc.1 nc.2] |}.

(** *** add_knowledge, lines 218-228: marking additional cells *)

(** [for safe_cell in list(X): self.mark_safe(safe_cell)] over a snapshot
    of the set; the snapshot is listed in the order of [elements]. *)
Definition mark_safe_cells (l : list cell) (st : t) : t :=
  foldl (λ st c, mark_safe c st) st l.

Definition mark_mine_cells (l : list cell) (st : t) : t :=
  foldl (λ st c, mark_mine c st) st l.

(** Body of [for sentence in self.knowledge]: the sentence is the object
    at position [i], read in the current state each time a method is
    called on it. *)
Definition mark_from_sentence (i : nat) (st : t) : t :=
  match knowledge st !! i with
  | None => st
  | Some s =>
      let st1 :=
        match Sentence.known_safes s with
        | Some X => mark_safe_cells (elements X) st
        | None => st
        end in
      match knowledge st1 !! i with
      | None => st1
      | Some s1 =>
          match Sentence.known_mines s1 with
          | Some X => mark_mine_cells (elements X) st1
          | None => st1
          end
      end
  end.

(** The list is not extended while this loop runs. *)
Definition mark_additional_cells (st : t) : t :=
  foldl (λ st i, mark_from_sentence i st) st (seq 0 (length (knowledge st))).

(** *** add_knowledge, lines 230-252: inferring new sentences *)

Definition subset_step (kb : list Sentence.t) (super : Sentence.t)
    (new_sentences : list Sentence.t) (sub : Sentence.t) : list Sentence.t :=
  if decide (Sentence.cells sub ⊆ Sentence.cells super) then
    let new_sentence :=
      Sentence.mk (Sentence.cells super ∖ Sentence.cells sub)
                  (Sentence.count super - Sentence.count sub) in
    if decide (new_sentence ∉ kb)
    then new_sentences ++ [new_sentence]
    else new_sentences
  else new_sentences.

Definition new_sentences (kb : list Sentence.t) : list Sentence.t :=
  foldl (λ acc super, foldl (subset_step kb super) acc kb) [] kb.

Definition infer_new_sentences (st : t) : t :=
  {| height := height st; width := width st;
     moves_made := moves_made st;
     mines := mines st;
     safes := safes st;
     knowledge := knowledge st ++ new_sentences (knowledge st) |}.

Definition add_knowledge (c : cell) (count : Z) (st : t) : t :=
  infer_new_sentences (mark_additional_cells (add_new_sentence c count st)).

(** *** The two queries; both return the agent's state unchanged. *)

(** The loop [for i in range(len(safe_list))] of [make_safe_move]. *)
Fixpoint safe_move_loop (safe_list : list cell) (moves : gset cell)
    (range : list nat) : outcome (option cell) :=
  match range with
  | [] => Return None
  | i :: range =>
      match Py.getitem safe_list i with
      | Raise e => Raise e
      | Return safe_cell =>
          if decide (safe_cell ∉ moves) then Return (Some safe_cell)
          else safe_move_loop safe_list moves range
      end
  end.

(** [safe_list = list(self.safes)] lists the set in an order the
    language leaves open; it is an argument here. *)
Definition make_safe_move_from (safe_list : list cell) (st : t)
    : outcome (option cell) * t :=
  (safe_move_loop safe_list (moves_made st) (seq 0 (length safe_list)), st).

Definition make_safe_move (st : t) : outcome (option cell) * t :=
  make_safe_move_from (elements (safes st)) st.

Definition possible_moves (st : t) : gset cell :=
  Py.for_grid (height st) (width st)
    (λ acc i j,
       if decide (((i, j) ∉ moves_made st) ∧ ((i, j) ∉ mines st))
       then acc ∪ {[(i, j)]} else acc)
    ∅.

(** [r] is the random source; [move_list] is [list(possible_moves)]. *)
Definition make_random_move_from (r : nat) (move_list : list cell) (st : t)
    : outcome (option cell) * t :=
  (if decide (length move_list = 0%nat) then Return None
   else match Py.random_choice r move_list with
        | Return c => Return (Some c)
        | Raise e => Raise e
        end, st).

Definition make_random_move (r : nat) (st : t) : outcome (option cell) * t :=
  make_random_move_from r (elements (possible_moves st)) st.

End MinesweeperAI.

Module AI := MinesweeperAI.

(** ** class Minesweeper: construction, is_mine and won

    The object with all the fields [__init__] sets.  The random source is
    explicit: the list of the pairs [(i, j)] that the successive calls of
    [random.randrange(height)] and [random.randrange(width)] return. *)

Module Game.

Record t := mk {
  height : Z;
  width : Z;
  mines : gset cell;
  board : list (list bool);
  mines_found : gset cell
}.

(** The part [nearby_mines] reads. *)
Definition to_minesweeper (g : t) : Minesweeper.t :=
  Minesweeper.mk (height g) (width g) (board g).

Inductive error := ValueError | BoardIndexError.

(** How [__init__] ends on a given list of draws. *)
Inductive constructed :=
| Built (g : t)
| Drawing (g : t)
| Raised (e : error).

(** The loops that build the empty field, row by row. *)
Definition empty_board (h w : Z) : list (list bool) :=
  foldl (λ board i, board ++ [foldl (λ row j, row ++ [false]) [] (seqZ 0 w)])
        [] (seqZ 0 h).

(** [while len(self.mines) != mines]: one iteration per draw.  With the
    draws used up and the loop still running the result is [Drawing];
    [randrange] raises [ValueError] for an empty range. *)
Fixpoint add_mines (target : Z) (draws : list cell) (g : t) : constructed :=
  if decide (Z.of_nat (size (mines g)) = target) then Built g
  else if decide (height g ≤ 0 ∨ width g ≤ 0) then Raised ValueError
  else match draws with
       | [] => Drawing g
       | (i, j) :: draws =>
           match board g !! Z.to_nat i with
           | None => Raised BoardIndexError
           | Some row =>
               match row !! Z.to_nat j with
               | None => Raised BoardIndexError
               | Some true => add_mines target draws g
               | Some false =>
                   add_mines target draws
                     {| height := height g; width := width g;
                        mines := mines g ∪ {[(i, j)]};
                        board := <[Z.to_nat i := <[Z.to_nat j := true]> row]> (board g);
                        mines_found := mines_found g |}
               end
           end
       end.

(** [Minesweeper(height, width, mines)] *)
Definition init (h w target : Z) (draws : list cell) : constructed :=
  add_mines target draws (mk h w ∅ (empty_board h w) ∅).

(** [l[i]] for any integer [i]: a negative index counts from the end. *)
Definition getitem {A} (l : list A) (i : Z) : outcome A :=
  if decide (0 ≤ i) then Py.getitem l (Z.to_nat i)
  else if decide (- Z.of_nat (length l) ≤ i)
       then Py.getitem l (Z.to_nat (Z.of_nat (length l) + i))
       else Raise IndexError.

Definition is_mine (g : t) (c : cell) : outcome bool :=
  match getitem (board g) c.1 with
  | Raise e => Raise e
  | Return row => getitem row c.2
  end.

Definition won (g : t) : bool := bool_decide (mines_found g = mines g).

End Game.

(** * Tic-tac-toe (week0/tictactoe/tictactoe.py): player and terminal

    A board is a Python list of rows, a row a list of squares; a square is
    ["X"], ["O"] or [EMPTY] ([None]). *)

Module TicTacToe.

Inductive mark := X | O.

Global Instance mark_eq_dec : EqDecision mark.
Proof. solve_decision. Defined.

(** [EMPTY] is [None]. *)
Abbreviation square := (option mark).
Abbreviation board := (list (list square)).

(** The counters [cell_count], [x_count], [o_count], [empty_count]. *)
Record counts := mk_counts {
  cell_count : nat;
  x_count : nat;
  o_count : nat;
  empty_count : nat
}.

Definition count_cell (n : counts) (cell : square) : counts :=
  match cell with
  | Some X => mk_counts (S (cell_count n)) (S (x_count n)) (o_count n) (empty_count n)
  | Some O => mk_counts (S (cell_count n)) (x_count n) (S (o_count n)) (empty_count n)
  | None => mk_counts (S (cell_count n)) (x_count n) (o_count n) (S (empty_count n))
  end.

Definition count_board (b : board) : counts :=
  foldl (λ n row, foldl count_cell n row) (mk_counts 0 0 0 0) b.

(** Falling off the end of [player] returns [None]. *)
Definition player (b : board) : option mark :=
  let n := count_board b in
  if decide (empty_count n = 0%nat) then None
  else if decide (cell_count n = empty_count n ∨ x_count n = o_count n) then Some X
  else if decide (o_count n < x_count n)%nat then Some O
  else None.

Definition terminal (b : board) : bool :=
  match player b with
  | None => true
  | Some _ => false
  end.

End TicTacToe.

(** * Vocabulary of the properties *)

(** ** Cells and the grid *)

(** A cell of the agent's grid. *)
Definition on_board (st : AI.t) (c : cell) : Prop :=
  (0 ≤ c.1 < AI.height st) ∧ (0 ≤ c.2 < AI.width st).

Global Instance on_board_dec st c : Decision (on_board st c).
Proof. unfold on_board. apply _. Defined.

(** [d] lies within one row and one column of [c] ([c] itself included). *)
Definition near (c d : cell) : Prop :=
  (c.1 - 1 ≤ d.1 ≤ c.1 + 1) ∧ (c.2 - 1 ≤ d.2 ≤ c.2 + 1).

Global Instance near_dec c d : Decision (near c d).
Proof. unfold near. apply _. Defined.

(** The nine cells the loops of [nearby_mines] and [add_knowledge] visit
    around a cell, the cell itself among them. *)
Definition block (c : cell) : list cell :=
  seqZ (c.1 - 1) 3 ≫= λ i, seqZ (c.2 - 1) 3 ≫= λ j, [(i, j)].

(** ** What the operations keep *)

(** A sentence object after some in-place updates: it has lost cells at
    most, and one without cells is as it was. *)
Definition sentence_kept (s s' : Sentence.t) : Prop :=
  Sentence.cells s' ⊆ Sentence.cells s ∧ (Sentence.cells s = ∅ → s' = s).

(** Every sentence object of [kb] is still there, at its position. *)
Definition kb_kept (kb kb' : list Sentence.t) : Prop :=
  ∀ i s, kb !! i = Some s → ∃ s', kb' !! i = Some s' ∧ sentence_kept s s'.

(** From [st] to [st'] the grid is the same, the three sets have lost
    nothing, and every sentence object is kept. *)
Record grows (st st' : AI.t) : Prop := mk_grows {
  grows_height : AI.height st' = AI.height st;
  grows_width : AI.width st' = AI.width st;
  grows_moves_made : AI.moves_made st ⊆ AI.moves_made st';
  grows_mines : AI.mines st ⊆ AI.mines st';
  grows_safes : AI.safes st ⊆ AI.safes st';
  grows_knowledge : kb_kept (AI.knowledge st) (AI.knowledge st')
}.

(** The operations that change an agent. *)
Inductive op :=
| MarkMine (c : cell)
| MarkSafe (c : cell)
| AddKnowledge (c : cell) (count : Z).

Definition step (st : AI.t) (o : op) : AI.t :=
  match o with
  | MarkMine c => AI.mark_mine c st
  | MarkSafe c => AI.mark_safe c st
  | AddKnowledge c count => AI.add_knowledge c count st
  end.

(** A sequence of calls, from left to right. *)
Definition run (ops : list op) (st : AI.t) : AI.t := foldl step st ops.

(** A property of cells that all cells of all sentences have. *)
Definition cells_all (Q : cell → Prop) (kb : list Sentence.t) : Prop :=
  ∀ s d, s ∈ kb → d ∈ Sentence.cells s → Q d.

(** ** The subset rule *)

(** The sentence the subset rule derives from [super] and [sub]. *)
Definition difference (super sub : Sentence.t) : Sentence.t :=
  Sentence.mk (Sentence.cells super ∖ Sentence.cells sub)
              (Sentence.count super - Sentence.count sub).

(** What the pair [(super, sub)] contributes to one pass over the base
    [kb]: its sentence, if [sub] is a subset of [super] and no value-equal
    sentence is in [kb]. *)
Definition pair_yield (kb : list Sentence.t) (super sub : Sentence.t)
    : list Sentence.t :=
  if decide (Sentence.cells sub ⊆ Sentence.cells super ∧ difference super sub ∉ kb)
  then [difference super sub] else [].

(** ** The board as ground truth *)

(** The board has a mine at [c]. *)
Definition mine_at (g : Minesweeper.t) (c : cell) : Prop :=
  Minesweeper.board_at g c.1 c.2 = true.

Global Instance mine_at_dec g c : Decision (mine_at g c).
Proof. unfold mine_at. apply _. Defined.

(** The number of cells of [X] where the board has a mine. *)
Definition mines_among (g : Minesweeper.t) (X : gset cell) : nat :=
  size (filter (mine_at g) X).

(** A sentence says the truth about the board. *)
Definition sentence_true (g : Minesweeper.t) (s : Sentence.t) : Prop :=
  Z.of_nat (mines_among g (Sentence.cells s)) = Sentence.count s.

(** All the agent holds is true of the board. *)
Record sound (g : Minesweeper.t) (st : AI.t) : Prop := mk_sound {
  sound_height : AI.height st = Minesweeper.height g;
  sound_width : AI.width st = Minesweeper.width g;
  sound_moves_made : ∀ c, c ∈ AI.moves_made st → ¬ mine_at g c;
  sound_mines : ∀ c, c ∈ AI.mines st → mine_at g c;
  sound_safes : ∀ c, c ∈ AI.safes st → ¬ mine_at g c;
  sound_knowledge : Forall (sentence_true g) (AI.knowledge st)
}.

(** The sentence at position [k] has count 0, and every cell of [N] is
    in it or is known safe; and the agent is sound. *)
Definition zero_pending (g : Minesweeper.t) (k : nat) (N : gset cell)
    (st : AI.t) : Prop :=
  sound g st ∧
  ∃ s, AI.knowledge st !! k = Some s ∧ Sentence.count s = 0 ∧
       ∀ d, d ∈ N → d ∈ Sentence.cells s ∨ d ∈ AI.safes st.

(** The states of an agent made for the board [g] and fed by it: every
    call of [add_knowledge] is for a cell without a mine, with the count
    [nearby_mines] gives for it. *)
Inductive reachable (g : Minesweeper.t) : AI.t → Prop :=
| reachable_init :
    reachable g (AI.init (Minesweeper.height g) (Minesweeper.width g))
| reachable_add_knowledge st c :
    reachable g st → ¬ mine_at g c →
    reachable g (AI.add_knowledge c (Minesweeper.nearby_mines g c) st).

(** ** A constructed game *)

(** A draw that [randrange(h)] and [randrange(w)] can return. *)
Definition in_range (h w : Z) (c : cell) : Prop :=
  (0 ≤ c.1 < h) ∧ (0 ≤ c.2 < w).

(** The field has [h] rows of [w] entries, it is [True] exactly at the
    cells of [mines], and the mines are cells of the field. *)
Record well_formed (h w : Z) (g : Game.t) : Prop := mk_well_formed {
  wf_height : Game.height g = h;
  wf_width : Game.width g = w;
  wf_rows : length (Game.board g) = Z.to_nat h;
  wf_columns : ∀ row, row ∈ Game.board g → length row = Z.to_nat w;
  wf_mines : ∀ c, c ∈ Game.mines g → in_range h w c;
  wf_board : ∀ c, in_range h w c →
     (Minesweeper.board_at (Game.to_minesweeper g) c.1 c.2 = true ↔ c ∈ Game.mines g)
}.

(** ** Tic-tac-toe boards *)

Module TTT := TicTacToe.

(** The number of squares of a list that hold [v]. *)
Definition count_in (v : TTT.square) (l : list TTT.square) : nat :=
  length (filter (λ cell, cell = v) l).

(** The number of squares of the board that hold [v]. *)
Definition count_of (v : TTT.square) (b : TTT.board) : nat :=
  count_in v (concat b).

(** * Properties *)

(** Closed goals about concrete states are decided by evaluation. *)
Ltac by_evaluation :=
  lazymatch goal with
  | |- _ = _ => vm_compute; reflexivity
  | |- ?P => apply (@bool_decide_unpack P _); vm_compute; exact I
  end.

(** ** Sentences *)

Section sentence_ops.
Implicit Types (s : Sentence.t) (c d : cell).

Lemma sentence_mark_mine_in s c :
  c ∈ Sentence.cells s →
  Sentence.mark_mine c s =
    Sentence.mk (Sentence.cells s ∖ {[c]}) (Sentence.count s - 1).
Proof. intros Hc. unfold Sentence.mark_mine. by rewrite decide_True. Qed.

Lemma sentence_mark_mine_notin s c :
  c ∉ Sentence.cells s → Sentence.mark_mine c s = s.
Proof. intros Hc. unfold Sentence.mark_mine. by rewrite decide_False. Qed.

Lemma sentence_mark_safe_in s c :
  c ∈ Sentence.cells s →
  Sentence.mark_safe c s =
    Sentence.mk (Sentence.cells s ∖ {[c]}) (Sentence.count s).
Proof. intros Hc. unfold Sentence.mark_safe. by rewrite decide_True. Qed.

Lemma sentence_mark_safe_notin s c :
  c ∉ Sentence.cells s → Sentence.mark_safe c s = s.
Proof. intros Hc. unfold Sentence.mark_safe. by rewrite decide_False. Qed.

Lemma sentence_mark_mine_cells s c :
  Sentence.cells (Sentence.mark_mine c s) = Sentence.cells s ∖ {[c]}.
Proof.
  unfold Sentence.mark_mine. case_decide; simpl; [done|set_solver].
Qed.

Lemma sentence_mark_safe_cells s c :
  Sentence.cells (Sentence.mark_safe c s) = Sentence.cells s ∖ {[c]}.
Proof.
  unfold Sentence.mark_safe. case_decide; simpl; [done|set_solver].
Qed.

Lemma sentence_mark_safe_count s c :
  Sentence.count (Sentence.mark_safe c s) = Sentence.count s.
Proof. unfold Sentence.mark_safe. by case_decide. Qed.

Lemma sentence_mark_mine_idemp s c :
  Sentence.mark_mine c (Sentence.mark_mine c s) = Sentence.mark_mine c s.
Proof.
  apply sentence_mark_mine_notin. rewrite sentence_mark_mine_cells. set_solver.
Qed.

Lemma sentence_mark_safe_idemp s c :
  Sentence.mark_safe c (Sentence.mark_safe c s) = Sentence.mark_safe c s.
Proof.
  apply sentence_mark_safe_notin. rewrite sentence_mark_safe_cells. set_solver.
Qed.

End sentence_ops.

(** C5. [Sentence.mark_mine] removes a member cell and decrements the count
    by exactly one, [Sentence.mark_safe] removes a member cell and keeps the
    count, and both leave the sentence as it is when the cell is not a
    member.  Both are functions of the sentence alone: they read and write
    nothing but its [cells] and [count]. *)
Theorem sentence_mark_mine_safe_spec (s : Sentence.t) (c : cell) :
  (c ∈ Sentence.cells s →
     Sentence.cells (Sentence.mark_mine c s) = Sentence.cells s ∖ {[c]} ∧
     (c ∉ Sentence.cells (Sentence.mark_mine c s)) ∧
     Sentence.count (Sentence.mark_mine c s) = Sentence.count s - 1) ∧
  (c ∉ Sentence.cells s → Sentence.mark_mine c s = s) ∧
  (c ∈ Sentence.cells s →
     Sentence.cells (Sentence.mark_safe c s) = Sentence.cells s ∖ {[c]} ∧
     (c ∉ Sentence.cells (Sentence.mark_safe c s)) ∧
     Sentence.count (Sentence.mark_safe c s) = Sentence.count s) ∧
  (c ∉ Sentence.cells s → Sentence.mark_safe c s = s).
Proof.
  repeat split.
  - by rewrite sentence_mark_mine_cells.
  - rewrite sentence_mark_mine_cells. set_solver.
  - by rewrite sentence_mark_mine_in.
  - apply sentence_mark_mine_notin.
  - by rewrite sentence_mark_safe_cells.
  - rewrite sentence_mark_safe_cells. set_solver.
  - apply sentence_mark_safe_count.
  - apply sentence_mark_safe_notin.
Qed.

(** C6, as stated, fails: for the sentence with no cells and count 0 the
    test [len(self.cells) == self.count] succeeds, so [known_mines] returns
    the (empty) cell set although [count > 0] does not hold. *)
Lemma known_mines_of_vacuous_sentence :
  let s := Sentence.mk ∅ 0 in
  Sentence.known_mines s = Some (Sentence.cells s) ∧
  ¬ (Z.of_nat (size (Sentence.cells s)) = Sentence.count s ∧ Sentence.count s > 0).
Proof. split; [reflexivity | simpl; lia]. Qed.

(** C6, amended. [known_mines] returns the cell set exactly when
    [len(cells) == count] (whatever the count) and [None] otherwise;
    [known_safes] returns the cell set exactly when [count == 0] and [None]
    otherwise. *)
Theorem known_mines_safes_spec (s : Sentence.t) :
  (Z.of_nat (size (Sentence.cells s)) = Sentence.count s →
     Sentence.known_mines s = Some (Sentence.cells s)) ∧
  (Z.of_nat (size (Sentence.cells s)) ≠ Sentence.count s →
     Sentence.known_mines s = None) ∧
  (Sentence.count s = 0 → Sentence.known_safes s = Some (Sentence.cells s)) ∧
  (Sentence.count s ≠ 0 → Sentence.known_safes s = None).
Proof.
  unfold Sentence.known_mines, Sentence.known_safes.
  repeat split; intros; by case_decide.
Qed.

(** ** Recording facts in the agent *)

Section mark.
Implicit Types (st : AI.t) (c d : cell).

Lemma mark_mine_idemp st c : AI.mark_mine c (AI.mark_mine c st) = AI.mark_mine c st.
Proof.
  unfold AI.mark_mine; simpl. f_equal.
  - set_solver.
  - rewrite <- list_fmap_compose. apply list_fmap_ext.
    intros _ s _. apply sentence_mark_mine_idemp.
Qed.

Lemma mark_safe_idemp st c : AI.mark_safe c (AI.mark_safe c st) = AI.mark_safe c st.
Proof.
  unfold AI.mark_safe; simpl. f_equal.
  - set_solver.
  - rewrite <- list_fmap_compose. apply list_fmap_ext.
    intros _ s _. apply sentence_mark_safe_idemp.
Qed.

End mark.

(** C7. Recording the same mine twice in succession gives the state that
    recording it once gives (all of [mines], [safes], [moves_made] and every
    sentence), and likewise for a safe cell. *)
Theorem mark_mine_safe_idempotent (st : AI.t) (c : cell) :
  AI.mark_mine c (AI.mark_mine c st) = AI.mark_mine c st ∧
  AI.mark_safe c (AI.mark_safe c st) = AI.mark_safe c st.
Proof. split; [apply mark_mine_idemp | apply mark_safe_idemp]. Qed.

(** C2, as stated, fails: on a fresh agent, recording the cell (0,0) as a
    mine and then as safe returns normally (neither method has a path that
    raises), and the cell sits in both sets. *)
Lemma mark_mine_then_safe_silently_accepted :
  let st := AI.mark_safe (0, 0) (AI.mark_mine (0, 0) (AI.init 8 8)) in
  (0, 0) ∈ AI.mines st ∧ (0, 0) ∈ AI.safes st.
Proof. simpl. set_solver. Qed.

(** C2, amended. [mark_mine] and [mark_safe] always return a state; a cell
    recorded both as a mine and as safe, in either order, is accepted
    silently and sits in both [mines] and [safes]. *)
Theorem mark_both_accepted (st : AI.t) (c : cell) :
  (c ∈ AI.mines (AI.mark_safe c (AI.mark_mine c st)) ∧
   c ∈ AI.safes (AI.mark_safe c (AI.mark_mine c st))) ∧
  (c ∈ AI.mines (AI.mark_mine c (AI.mark_safe c st)) ∧
   c ∈ AI.safes (AI.mark_mine c (AI.mark_safe c st))).
Proof. simpl. set_solver. Qed.

(** ** The two queries *)

Section queries.
Implicit Types (st : AI.t) (c d : cell) (l : list cell).

Lemma getitem_lt {A} (l : list A) (i : nat) :
  (i < length l)%nat → ∃ x, Py.getitem l i = Return x ∧ l !! i = Some x.
Proof.
  intros Hi. destruct (lookup_lt_is_Some_2 l i Hi) as [x Hx].
  exists x. unfold Py.getitem. by rewrite Hx.
Qed.

Lemma random_choice_nonempty {A} (r : nat) (l : list A) :
  l ≠ [] → ∃ x, Py.random_choice r l = Return x ∧ x ∈ l.
Proof.
  intros Hl. destruct l as [|y l]; [done|].
  unfold Py.random_choice.
  destruct (getitem_lt (y :: l) (r mod length (y :: l))%nat) as (x & Hx & Hlk).
  { apply Nat.mod_upper_bound. simpl. lia. }
  exists x. split; [done|]. by eapply list_elem_of_lookup_2.
Qed.

Lemma safe_move_loop_spec l (moves : gset cell) (k n : nat) :
  (k + n ≤ length l)%nat →
  ∃ res, AI.safe_move_loop l moves (seq k n) = Return res ∧
    match res with
    | Some c => c ∈ l ∧ (c ∉ moves)
    | None => ∀ i c, (k ≤ i < k + n)%nat → l !! i = Some c → c ∈ moves
    end.
Proof.
  revert k. induction n as [|n IH]; intros k Hk; simpl.
  - exists None. split; [done|]. intros; lia.
  - destruct (getitem_lt l k) as (x & -> & Hx); [lia|].
    destruct (decide (x ∉ moves)) as [Hm|Hm].
    + exists (Some x). split; [done|]. split; [|done].
      by eapply list_elem_of_lookup_2.
    + destruct (IH (S k)) as (res & Hres & Hspec); [lia|].
      exists res. split; [done|]. destruct res as [c|]; [done|].
      intros i c Hi Hc. destruct (decide (i = k)) as [->|Hne].
      * assert (c = x) as -> by congruence.
        by destruct (decide (x ∈ moves)).
      * apply (Hspec i c); [lia|done].
Qed.

Lemma for_grid_row_elem (P : cell → Prop) `{!∀ x, Decision (P x)}
    (i : Z) (l : list Z) (a : gset cell) c :
  c ∈ foldl (λ acc j, if decide (P (i, j)) then acc ∪ {[(i, j)]} else acc) a l
  ↔ c ∈ a ∨ (c.1 = i ∧ c.2 ∈ l ∧ P c).
Proof.
  revert a. induction l as [|j l IH]; intros a; simpl.
  - set_solver.
  - rewrite IH. destruct c as [ci cj]; simpl. case_decide; set_solver.
Qed.

Lemma for_grid_elem (P : cell → Prop) `{!∀ x, Decision (P x)}
    (li lj : list Z) (a : gset cell) c :
  c ∈ foldl (λ acc i,
         foldl (λ acc j, if decide (P (i, j)) then acc ∪ {[(i, j)]} else acc)
               acc lj) a li
  ↔ c ∈ a ∨ (c.1 ∈ li ∧ c.2 ∈ lj ∧ P c).
Proof.
  revert a. induction li as [|i li IH]; intros a; simpl.
  - set_solver.
  - rewrite IH, for_grid_row_elem. set_solver.
Qed.

Lemma elem_of_possible_moves st c :
  c ∈ AI.possible_moves st ↔
  on_board st c ∧ (c ∉ AI.moves_made st) ∧ (c ∉ AI.mines st).
Proof.
  unfold AI.possible_moves, Py.for_grid, on_board.
  pose proof (for_grid_elem (λ x, (x ∉ AI.moves_made st) ∧ (x ∉ AI.mines st))
                (seqZ 0 (AI.height st)) (seqZ 0 (AI.width st)) ∅ c) as Hg.
  cbv beta in Hg. rewrite Hg, !elem_of_seqZ. set_solver by lia.
Qed.

End queries.

(** C9. Whatever order [list(self.safes)] and [list(possible_moves)] list
    their sets in and whatever the random source yields, [make_safe_move]
    returns normally a cell of [safes] that is not in [moves_made] when there
    is one and [None] otherwise, [make_random_move] returns normally a cell
    of the grid that is neither in [moves_made] nor in [mines] when there is
    one and [None] otherwise, and both leave the agent's state as it was. *)
Theorem queries_return_and_preserve_state
    (st : AI.t) (safe_list move_list : list cell) (r : nat) :
  (∀ c, c ∈ safe_list ↔ c ∈ AI.safes st) →
  (∀ c, c ∈ move_list ↔ c ∈ AI.possible_moves st) →
  (∃ res, AI.make_safe_move_from safe_list st = (Return res, st) ∧
     match res with
     | Some c => c ∈ AI.safes st ∧ (c ∉ AI.moves_made st)
     | None => ¬ ∃ c, c ∈ AI.safes st ∧ (c ∉ AI.moves_made st)
     end) ∧
  (∃ res, AI.make_random_move_from r move_list st = (Return res, st) ∧
     match res with
     | Some c => on_board st c ∧ (c ∉ AI.moves_made st) ∧ (c ∉ AI.mines st)
     | None => ¬ ∃ c, on_board st c ∧ (c ∉ AI.moves_made st) ∧ (c ∉ AI.mines st)
     end).
Proof.
  intros Hsafe Hmove. split.
  - unfold AI.make_safe_move_from.
    destruct (safe_move_loop_spec safe_list (AI.moves_made st) 0 (length safe_list))
      as (res & -> & Hres); [lia|].
    exists res. split; [done|]. destruct res as [c|].
    + destruct Hres as [Hc ?]. by apply Hsafe in Hc.
    + intros (c & Hc & Hm). apply Hsafe in Hc.
      apply list_elem_of_lookup_1 in Hc as [i Hi].
      apply Hm, (Hres i c); [|done].
      apply lookup_lt_Some in Hi. lia.
  - unfold AI.make_random_move_from. case_decide as Hlen.
    + exists None. split; [done|]. intros (c & Hc).
      apply elem_of_possible_moves, Hmove in Hc.
      apply length_zero_iff_nil in Hlen. subst. by apply elem_of_nil in Hc.
    + destruct (random_choice_nonempty r move_list) as (c & -> & Hc).
      { intros ->. done. }
      exists (Some c). split; [done|].
      by apply Hmove, elem_of_possible_moves in Hc.
Qed.

Lemma queries_return_and_preserve_state_witness :
  let st := AI.add_knowledge (0, 1) 0 (AI.init 1 4) in
  (∃ res, AI.make_safe_move st = (Return res, st) ∧
     match res with
     | Some c => c ∈ AI.safes st ∧ (c ∉ AI.moves_made st)
     | None => ¬ ∃ c, c ∈ AI.safes st ∧ (c ∉ AI.moves_made st)
     end) ∧
  (∃ res, AI.make_random_move 7 st = (Return res, st) ∧
     match res with
     | Some c => on_board st c ∧ (c ∉ AI.moves_made st) ∧ (c ∉ AI.mines st)
     | None => ¬ ∃ c, on_board st c ∧ (c ∉ AI.moves_made st) ∧ (c ∉ AI.mines st)
     end).
Proof.
  intros st.
  apply (queries_return_and_preserve_state st
           (elements (AI.safes st)) (elements (AI.possible_moves st)) 7%nat).
  - intros c. apply elem_of_elements.
  - intros c. apply elem_of_elements.
Defined.

(** ** Loops as folds *)

Section loops.
Context {A B : Type}.

Lemma foldl_bind_list {C} (f : A → C → A) (g : B → list C) (l : list B) (a : A) :
  foldl f a (l ≫= g) = foldl (λ a x, foldl f a (g x)) a l.
Proof.
  revert a. induction l as [|x l IH]; intros a; [done|].
  change ((x :: l) ≫= g) with (g x ++ (l ≫= g)).
  rewrite foldl_app. apply IH.
Qed.

(** A property kept by every iteration is kept by the loop. *)
Lemma foldl_invariant (P : A → Prop) (Q : B → Prop) (f : A → B → A)
    (l : list B) (a : A) :
  (∀ a x, Q x → P a → P (f a x)) → Forall Q l → P a → P (foldl f a l).
Proof.
  intros Hf. revert a. induction l as [|x l IH]; intros a Hl Ha; [done|].
  apply Forall_cons in Hl as [Hx Hl]. simpl. apply IH; [done|]. by apply Hf.
Qed.

(** A preorder followed by every iteration is followed by the loop. *)
Lemma foldl_preorder (R : A → A → Prop) `{!PreOrder R} (f : A → B → A)
    (l : list B) (a : A) :
  (∀ a x, R a (f a x)) → R a (foldl f a l).
Proof.
  intros Hf. revert a. induction l as [|x l IH]; intros a; [done|].
  simpl. etrans; [apply Hf | apply IH].
Qed.

End loops.

Section block.
Implicit Types (c d : cell).

Lemma for_block_foldl {A} (c : cell) (body : A → Z → Z → A) (a : A) :
  Py.for_block c body a = foldl (λ a d, body a d.1 d.2) a (block c).
Proof.
  unfold Py.for_block, block. rewrite foldl_bind_list. reflexivity.
Qed.

Lemma elem_of_block c d :
  d ∈ block c ↔ (c.1 - 1 ≤ d.1 ≤ c.1 + 1) ∧ (c.2 - 1 ≤ d.2 ≤ c.2 + 1).
Proof.
  unfold block. rewrite list_elem_of_bind.
  setoid_rewrite list_elem_of_bind. setoid_rewrite elem_of_seqZ.
  setoid_rewrite list_elem_of_singleton. split.
  - intros (i & (j & -> & Hj) & Hi). simpl. lia.
  - intros [Hi Hj]. exists d.1. split; [|lia].
    exists d.2. split; [by destruct d|lia].
Qed.

Lemma NoDup_block c : NoDup (block c).
Proof.
  unfold block. apply NoDup_bind; [| |apply NoDup_seqZ].
  - intros i1 i2 d _ _ (j1 & Hd1 & _)%list_elem_of_bind (j2 & Hd2 & _)%list_elem_of_bind.
    apply list_elem_of_singleton in Hd1, Hd2. congruence.
  - intros i _. apply NoDup_bind; [| |apply NoDup_seqZ].
    + intros j1 j2 d _ _ Hd1%list_elem_of_singleton Hd2%list_elem_of_singleton.
      congruence.
    + intros j _. apply NoDup_singleton.
Qed.

Lemma block_self c : c ∈ block c.
Proof. apply elem_of_block. lia. Qed.

End block.

(** ** The new sentence of an observation *)

Section new_sentence.
Implicit Types (st : AI.t) (c d : cell) (l : list cell).

Lemma visit_neighbor_foldl st (moves : gset cell) l (acc : gset cell * Z) :
  foldl (λ acc d, AI.visit_neighbor (AI.height st) (AI.width st) moves
                    (AI.mines st) acc d.1 d.2) acc l =
  (acc.1 ∪ list_to_set
         (filter (λ d, on_board st d ∧ (d ∉ moves) ∧ (d ∉ AI.mines st)) l),
   acc.2 - Z.of_nat (length (filter (λ d, on_board st d ∧ d ∈ AI.mines st) l))).
Proof.
  revert acc. induction l as [|d l IH]; intros [N n]; simpl.
  - f_equal; [set_solver|lia].
  - rewrite IH. clear IH. unfold AI.visit_neighbor, on_board. rewrite !filter_cons.
    destruct d as [i j]; simpl.
    assert ((i >= 0 ∧ j >= 0 ∧ i < AI.height st ∧ j < AI.width st) ↔
            (0 ≤ i < AI.height st) ∧ (0 ≤ j < AI.width st)) as Hb by lia.
    repeat case_decide; simpl; try (exfalso; tauto).
    all: f_equal; try lia.
    all: clear; set_solver.
Qed.

Lemma size_filter_list_to_set (P : cell → Prop) `{!∀ x, Decision (P x)} l :
  NoDup l → size (filter P (list_to_set l : gset cell)) = length (filter P l).
Proof.
  intros Hl.
  replace (filter P (list_to_set l : gset cell))
    with (list_to_set (filter P l) : gset cell).
  - apply size_list_to_set. by apply NoDup_filter.
  - apply set_eq. intros x.
    rewrite elem_of_filter, !elem_of_list_to_set, list_elem_of_filter. done.
Qed.

Lemma add_new_sentence_knowledge c n st :
  AI.knowledge (AI.add_new_sentence c n st) =
  AI.knowledge st ++
    [Sentence.mk
       (list_to_set (filter (λ d, on_board st d ∧ (d ∉ AI.moves_made st ∪ {[c]})
                                  ∧ (d ∉ AI.mines st)) (block c)))
       (n - Z.of_nat (length (filter (λ d, on_board st d ∧ d ∈ AI.mines st)
                                     (block c))))].
Proof.
  unfold AI.add_new_sentence; simpl.
  rewrite for_block_foldl, visit_neighbor_foldl; simpl.
  do 3 f_equal. set_solver.
Qed.

Lemma known_mines_near_count c st :
  length (filter (λ d, on_board st d ∧ d ∈ AI.mines st) (block c)) =
  size (filter (λ d, near c d ∧ on_board st d) (AI.mines st)).
Proof.
  rewrite <- (size_filter_list_to_set _ _ (NoDup_block c)).
  f_equal. apply set_eq. intros d.
  rewrite !elem_of_filter, elem_of_list_to_set, elem_of_block.
  unfold near. tauto.
Qed.

End new_sentence.

(** ** What the operations keep *)

Section grows.
Implicit Types (st : AI.t) (c d : cell) (s : Sentence.t) (kb : list Sentence.t).

Lemma sentence_kept_refl s : sentence_kept s s.
Proof. by split. Qed.

Lemma sentence_kept_trans s1 s2 s3 :
  sentence_kept s1 s2 → sentence_kept s2 s3 → sentence_kept s1 s3.
Proof.
  intros [Hsub12 He12] [Hsub23 He23]. split; [set_solver|].
  intros He. rewrite <- (He12 He). apply He23. set_solver.
Qed.

Lemma kb_kept_refl kb : kb_kept kb kb.
Proof. intros i s Hs. exists s. split; [done|apply sentence_kept_refl]. Qed.

Lemma kb_kept_trans kb1 kb2 kb3 :
  kb_kept kb1 kb2 → kb_kept kb2 kb3 → kb_kept kb1 kb3.
Proof.
  intros H12 H23 i s1 Hs1.
  destruct (H12 i s1 Hs1) as (s2 & Hs2 & Hk12).
  destruct (H23 i s2 Hs2) as (s3 & Hs3 & Hk23).
  exists s3. split; [done|]. by eapply sentence_kept_trans.
Qed.

Lemma kb_kept_length kb kb' : kb_kept kb kb' → (length kb ≤ length kb')%nat.
Proof.
  intros Hk. destruct (decide (length kb ≤ length kb')%nat) as [|Hlt]; [done|].
  destruct (lookup_lt_is_Some_2 kb (length kb')) as [s Hs]; [lia|].
  destruct (Hk _ _ Hs) as (s' & Hs' & _).
  apply lookup_lt_Some in Hs'. lia.
Qed.

Lemma kb_kept_fmap (f : Sentence.t → Sentence.t) kb :
  (∀ s, sentence_kept s (f s)) → kb_kept kb (f <$> kb).
Proof.
  intros Hf i s Hs. exists (f s). split; [|apply Hf].
  by rewrite list_lookup_fmap, Hs.
Qed.

Lemma kb_kept_app kb new : kb_kept kb (kb ++ new).
Proof.
  intros i s Hs. exists s. split; [|apply sentence_kept_refl].
  by apply lookup_app_l_Some.
Qed.

Lemma sentence_kept_mark_mine c s : sentence_kept s (Sentence.mark_mine c s).
Proof.
  split.
  - rewrite sentence_mark_mine_cells. set_solver.
  - intros He. apply sentence_mark_mine_notin. set_solver.
Qed.

Lemma sentence_kept_mark_safe c s : sentence_kept s (Sentence.mark_safe c s).
Proof.
  split.
  - rewrite sentence_mark_safe_cells. set_solver.
  - intros He. apply sentence_mark_safe_notin. set_solver.
Qed.

Global Instance grows_preorder : PreOrder grows.
Proof.
  split.
  - intros st. split; try done. apply kb_kept_refl.
  - intros st1 st2 st3 [Hh1 Hw1 Hv1 Hm1 Hs1 Hk1] [Hh2 Hw2 Hv2 Hm2 Hs2 Hk2].
    split.
    + congruence.
    + congruence.
    + by etrans.
    + by etrans.
    + by etrans.
    + by eapply kb_kept_trans.
Qed.

Lemma grows_mark_mine c st : grows st (AI.mark_mine c st).
Proof.
  split; simpl; try done; try set_solver.
  apply kb_kept_fmap, sentence_kept_mark_mine.
Qed.

Lemma grows_mark_safe c st : grows st (AI.mark_safe c st).
Proof.
  split; simpl; try done; try set_solver.
  apply kb_kept_fmap, sentence_kept_mark_safe.
Qed.

Lemma grows_mark_mine_cells l st : grows st (AI.mark_mine_cells l st).
Proof. apply (foldl_preorder grows). intros. apply grows_mark_mine. Qed.

Lemma grows_mark_safe_cells l st : grows st (AI.mark_safe_cells l st).
Proof. apply (foldl_preorder grows). intros. apply grows_mark_safe. Qed.

Lemma grows_mark_from_sentence i st : grows st (AI.mark_from_sentence i st).
Proof.
  unfold AI.mark_from_sentence.
  destruct (AI.knowledge st !! i) as [s|]; [|done].
  set (st1 := match Sentence.known_safes s with
              | Some X => AI.mark_safe_cells (elements X) st
              | None => st
              end).
  assert (grows st st1) as H1.
  { subst st1. destruct (Sentence.known_safes s); [|done].
    apply grows_mark_safe_cells. }
  destruct (AI.knowledge st1 !! i) as [s1|]; [|done].
  destruct (Sentence.known_mines s1); [|done].
  etrans; [exact H1|]. apply grows_mark_mine_cells.
Qed.

Lemma grows_mark_additional_cells st : grows st (AI.mark_additional_cells st).
Proof. apply (foldl_preorder grows). intros. apply grows_mark_from_sentence. Qed.

Lemma grows_add_new_sentence c n st : grows st (AI.add_new_sentence c n st).
Proof.
  split; simpl; try done; try set_solver. apply kb_kept_app.
Qed.

Lemma grows_infer_new_sentences st : grows st (AI.infer_new_sentences st).
Proof. split; simpl; try done. apply kb_kept_app. Qed.

Lemma grows_add_knowledge c n st : grows st (AI.add_knowledge c n st).
Proof.
  unfold AI.add_knowledge.
  etrans; [apply (grows_add_new_sentence c n)|].
  etrans; [apply grows_mark_additional_cells|].
  apply grows_infer_new_sentences.
Qed.

(** The marking loops do not touch [moves_made]. *)
Lemma mark_additional_cells_moves_made st :
  AI.moves_made (AI.mark_additional_cells st) = AI.moves_made st.
Proof.
  unfold AI.mark_additional_cells.
  apply (foldl_invariant (λ st', AI.moves_made st' = AI.moves_made st) (λ _, True));
    [|by apply Forall_true|done].
  intros st' i _ <-. unfold AI.mark_from_sentence.
  assert (∀ l st0, AI.moves_made (AI.mark_safe_cells l st0) = AI.moves_made st0) as Hs.
  { intros l st0. unfold AI.mark_safe_cells.
    apply (foldl_invariant (λ st', AI.moves_made st' = AI.moves_made st0) (λ _, True));
      [|by apply Forall_true|done].
    by intros ? ? _ <-. }
  assert (∀ l st0, AI.moves_made (AI.mark_mine_cells l st0) = AI.moves_made st0) as Hm.
  { intros l st0. unfold AI.mark_mine_cells.
    apply (foldl_invariant (λ st', AI.moves_made st' = AI.moves_made st0) (λ _, True));
      [|by apply Forall_true|done].
    by intros ? ? _ <-. }
  destruct (AI.knowledge st' !! i) as [s|]; [|done].
  destruct (Sentence.known_safes s) as [X|].
  - destruct (AI.knowledge _ !! i) as [s1|]; [|by rewrite Hs].
    destruct (Sentence.known_mines s1); by rewrite ?Hm, Hs.
  - destruct (AI.knowledge _ !! i) as [s1|]; [|done].
    destruct (Sentence.known_mines s1); by rewrite ?Hm.
Qed.

End grows.

(** C3, as stated, fails in three places.  On a 1x4 grid, after (0,1) was
    observed with count 0, the cell (0,2) is known safe, and the sentence
    built for (0,3) still has it; observing (0,2) next builds a sentence
    without cells, and it is appended all the same.  On a 1x5 grid, after
    (0,1) was observed with count 1 the base holds {(0,0),(0,2)} = 1, and
    after (0,2) is observed that sentence still has the cell (0,2). *)
Lemma add_knowledge_sentence_not_as_claimed :
  let st1 := AI.add_knowledge (0, 1) 0 (AI.init 1 4) in
  let st2 := AI.add_knowledge (0, 3) 0 st1 in
  let st3 := AI.add_knowledge (0, 1) 1 (AI.init 1 5) in
  ((0, 2) ∈ AI.safes st1 ∧
   AI.knowledge (AI.add_new_sentence (0, 3) 0 st1) =
     AI.knowledge st1 ++ [Sentence.mk {[(0, 2)]} 0]) ∧
  (AI.knowledge (AI.add_new_sentence (0, 2) 0 st2) =
     AI.knowledge st2 ++ [Sentence.mk ∅ 0] ∧
   AI.knowledge (AI.add_knowledge (0, 2) 0 st2) =
     AI.knowledge st2 ++ [Sentence.mk ∅ 0]) ∧
  (AI.knowledge st3 !! 0%nat = Some (Sentence.mk {[(0, 0); (0, 2)]} 1) ∧
   AI.knowledge (AI.add_knowledge (0, 2) 0 st3) !! 0%nat =
     Some (Sentence.mk {[(0, 0); (0, 2)]} 1)).
Proof. repeat split; by_evaluation. Qed.

(** C3, amended. A call [add_knowledge(cell, count)] adds the cell to
    [moves_made] and to [safes]; it builds a sentence whose cells are
    exactly the neighbours on the grid that are neither in [moves_made] nor
    in [mines] (a neighbour known safe but not yet played is kept), and whose
    count is [count] less the number of cells of [mines] on the grid within
    one row and column of the cell; and it appends that sentence to the base
    in every case, also when it has no cells. *)
Theorem add_knowledge_new_sentence (c : cell) (n : Z) (st : AI.t) :
  AI.moves_made (AI.add_knowledge c n st) = AI.moves_made st ∪ {[c]} ∧
  c ∈ AI.safes (AI.add_knowledge c n st) ∧
  AI.add_knowledge c n st =
    AI.infer_new_sentences (AI.mark_additional_cells (AI.add_new_sentence c n st)) ∧
  length (AI.knowledge (AI.add_new_sentence c n st)) = S (length (AI.knowledge st)) ∧
  ∃ s, AI.knowledge (AI.add_new_sentence c n st) !! length (AI.knowledge st) = Some s ∧
    (∀ d, d ∈ Sentence.cells s ↔
          (near c d ∧ d ≠ c) ∧ on_board st d ∧
          (d ∉ AI.moves_made st) ∧ (d ∉ AI.mines st)) ∧
    Sentence.count s =
      n - Z.of_nat (size (filter (λ d, near c d ∧ on_board st d) (AI.mines st))).
Proof.
  split; [|split; [|split; [done|split]]].
  - unfold AI.add_knowledge; simpl. by rewrite mark_additional_cells_moves_made.
  - unfold AI.add_knowledge.
    eapply (grows_safes (AI.add_new_sentence c n st)).
    { etrans; [apply grows_mark_additional_cells|apply grows_infer_new_sentences]. }
    simpl. set_solver.
  - rewrite add_new_sentence_knowledge, length_app. simpl. lia.
  - rewrite add_new_sentence_knowledge.
    eexists. split; [by apply list_lookup_middle|]. simpl. split.
    + intros d. rewrite elem_of_list_to_set, list_elem_of_filter, elem_of_block.
      unfold near. set_solver.
    + by rewrite known_mines_near_count.
Qed.

(** ** The base only grows *)

Lemma grows_run ops st : grows st (run ops st).
Proof.
  apply (foldl_preorder grows). intros st' [c|c|c n]; simpl.
  - apply grows_mark_mine.
  - apply grows_mark_safe.
  - apply grows_add_knowledge.
Qed.

(** C10. Through any sequence of [mark_mine], [mark_safe] and
    [add_knowledge] calls the knowledge list never gets shorter, and a
    sentence of the base stays at its position: it has lost cells at most,
    and a sentence without cells (the vacuous sentence with count 0 among
    them) is exactly as it was. *)
Theorem knowledge_never_removed (ops : list op) (st : AI.t) (i : nat) (s : Sentence.t) :
  AI.knowledge st !! i = Some s →
  (length (AI.knowledge st) ≤ length (AI.knowledge (run ops st)))%nat ∧
  ∃ s', AI.knowledge (run ops st) !! i = Some s' ∧
        Sentence.cells s' ⊆ Sentence.cells s ∧
        (Sentence.cells s = ∅ → s' = s).
Proof.
  intros Hs. pose proof (grows_knowledge _ _ (grows_run ops st)) as Hk. split.
  - by apply kb_kept_length.
  - destruct (Hk i s Hs) as (s' & Hs' & Hsub & He). by exists s'.
Qed.

Lemma knowledge_never_removed_witness :
  let st := AI.add_knowledge (0, 0) 1 (AI.init 3 3) in
  let ops := [MarkMine (1, 1); AddKnowledge (2, 2) 1; MarkSafe (0, 1)] in
  (length (AI.knowledge st) ≤ length (AI.knowledge (run ops st)))%nat ∧
  ∃ s', AI.knowledge (run ops st) !! 1%nat = Some s' ∧
        Sentence.cells s' ⊆ Sentence.cells (Sentence.mk ∅ 0) ∧
        (Sentence.cells (Sentence.mk ∅ 0) = ∅ → s' = Sentence.mk ∅ 0).
Proof.
  intros st ops.
  apply (knowledge_never_removed ops st 1%nat (Sentence.mk ∅ 0)).
  vm_compute. reflexivity.
Defined.

(** ** Inferring new sentences *)

Section inference.
Implicit Types (s A B : Sentence.t) (kb l acc : list Sentence.t).

Lemma elem_of_subset_loop kb A l acc s :
  s ∈ foldl (AI.subset_step kb A) acc l ↔
  s ∈ acc ∨ ∃ B, B ∈ l ∧ Sentence.cells B ⊆ Sentence.cells A ∧
                 s = difference A B ∧ s ∉ kb.
Proof.
  revert acc. induction l as [|B l IH]; intros acc; simpl.
  - split; [by left|]. intros [?|(B & HB & _)]; [done|].
    by apply elem_of_nil in HB.
  - rewrite IH. unfold AI.subset_step. fold (difference A B).
    setoid_rewrite elem_of_cons. repeat case_decide.
    + rewrite elem_of_app, list_elem_of_singleton. naive_solver.
    + naive_solver.
    + naive_solver.
Qed.

Lemma elem_of_superset_loop kb l acc s :
  s ∈ foldl (λ acc super, foldl (AI.subset_step kb super) acc kb) acc l ↔
  s ∈ acc ∨ ∃ A B, A ∈ l ∧ B ∈ kb ∧ Sentence.cells B ⊆ Sentence.cells A ∧
                   s = difference A B ∧ s ∉ kb.
Proof.
  revert acc. induction l as [|A l IH]; intros acc; simpl.
  - split; [by left|]. intros [?|(A & B & HA & _)]; [done|].
    by apply elem_of_nil in HA.
  - rewrite IH, elem_of_subset_loop. setoid_rewrite elem_of_cons. naive_solver.
Qed.

End inference.

(** C4, as stated, fails.  A sentence paired with itself is a pair the pass
    uses: from a base of one sentence it derives the sentence without cells.
    The pass takes no sentence out of the base: on a 1x2 grid without mines,
    after (0,0) and then (0,1) were observed with count 0, the base holds
    the sentence without cells twice before the pass and after it.  And one
    pass can append a sentence twice: on a 3x3 grid with mines at (0,1) and
    (2,1), after (0,0), (1,2), (0,2) and (1,0) were observed (counts 1, 2,
    1, 2), the last pass appends {(2,0),(2,1)} = 1 twice. *)
Lemma inference_pairs_and_duplicates :
  AI.new_sentences [Sentence.mk {[(0, 1); (1, 0); (1, 1)]} 1] = [Sentence.mk ∅ 0] ∧
  (let st :=
     AI.mark_additional_cells
       (AI.add_new_sentence (0, 1) 0 (AI.add_knowledge (0, 0) 0 (AI.init 1 2))) in
   AI.knowledge st = [Sentence.mk ∅ 0; Sentence.mk ∅ 0] ∧
   AI.knowledge (AI.infer_new_sentences st) = [Sentence.mk ∅ 0; Sentence.mk ∅ 0]) ∧
  (let st :=
     AI.mark_additional_cells
       (AI.add_new_sentence (1, 0) 2
          (AI.add_knowledge (0, 2) 1
             (AI.add_knowledge (1, 2) 2
                (AI.add_knowledge (0, 0) 1 (AI.init 3 3))))) in
   AI.new_sentences (AI.knowledge st) =
     [Sentence.mk {[(2, 0); (2, 1)]} 1; Sentence.mk {[(2, 0); (2, 1)]} 1] ∧
   ¬ NoDup (AI.knowledge (AI.infer_new_sentences st))).
Proof. repeat split; by_evaluation. Qed.

(** C4, amended. The pass keeps the sentences of the base as they are and
    in their order, appends sentences after them, and leaves [mines],
    [safes] and [moves_made] alone.  A sentence is among the appended ones
    exactly if it is [(A.cells - B.cells, A.count - B.count)] for an ordered
    pair [(A, B)] of sentences of the base with [B.cells ⊆ A.cells] and no
    value-equal sentence is in the base as the pass found it.  No pair is
    left out: a sentence paired with itself, a pair with equal cell sets and
    a [B] without cells count, so after the pass the base holds the sentence
    of every such pair, and the sentence without cells and with count 0 as
    soon as the base is not empty.  Sentences that were value-equal before
    the pass are value-equal after it.  How often one pass appends a sentence
    that several of its pairs yield is not part of this statement. *)
Theorem new_sentences_spec (st : AI.t) (s : Sentence.t) :
  AI.knowledge (AI.infer_new_sentences st) =
    AI.knowledge st ++ AI.new_sentences (AI.knowledge st) ∧
  (s ∈ AI.new_sentences (AI.knowledge st) ↔
   ∃ A B, A ∈ AI.knowledge st ∧ B ∈ AI.knowledge st ∧
          Sentence.cells B ⊆ Sentence.cells A ∧
          s = Sentence.mk (Sentence.cells A ∖ Sentence.cells B)
                          (Sentence.count A - Sentence.count B) ∧
          s ∉ AI.knowledge st) ∧
  (∀ A B, A ∈ AI.knowledge st → B ∈ AI.knowledge st →
          Sentence.cells B ⊆ Sentence.cells A →
          Sentence.mk (Sentence.cells A ∖ Sentence.cells B)
                      (Sentence.count A - Sentence.count B)
            ∈ AI.knowledge (AI.infer_new_sentences st)) ∧
  (∀ A, A ∈ AI.knowledge st →
        Sentence.mk ∅ 0 ∈ AI.knowledge (AI.infer_new_sentences st)) ∧
  (AI.mines (AI.infer_new_sentences st) = AI.mines st ∧
   AI.safes (AI.infer_new_sentences st) = AI.safes st ∧
   AI.moves_made (AI.infer_new_sentences st) = AI.moves_made st) ∧
  (NoDup (AI.knowledge (AI.infer_new_sentences st)) → NoDup (AI.knowledge st)).
Proof.
  assert (∀ A B, A ∈ AI.knowledge st → B ∈ AI.knowledge st →
                 Sentence.cells B ⊆ Sentence.cells A →
                 difference A B ∈ AI.knowledge (AI.infer_new_sentences st)) as Hpair.
  { intros A B HA HB Hsub. simpl. apply elem_of_app.
    destruct (decide (difference A B ∈ AI.knowledge st)) as [Hin|Hnotin]; [by left|].
    right. unfold AI.new_sentences. apply elem_of_superset_loop. right.
    by exists A, B. }
  split; [done|]. split; [|split; [|split; [|split]]].
  - unfold AI.new_sentences. rewrite elem_of_superset_loop.
    unfold difference. split.
    + intros [Hnil|H]; [by apply elem_of_nil in Hnil|done].
    + by right.
  - exact Hpair.
  - intros A HA.
    replace (Sentence.mk ∅ 0) with (difference A A); [by apply Hpair|].
    unfold difference. f_equal; [|lia]. clear. set_solver.
  - done.
  - simpl. by intros [? _]%NoDup_app.
Qed.

(** ** Soundness against the board *)

Section sentence_truth.
Variable g : Minesweeper.t.
Implicit Types (s : Sentence.t) (c d : cell) (X Y : gset cell).

Lemma mines_among_remove_safe X c :
  ¬ mine_at g c → mines_among g (X ∖ {[c]}) = mines_among g X.
Proof.
  intros Hc. unfold mines_among. f_equal. apply set_eq. intros d.
  rewrite !elem_of_filter. set_solver.
Qed.

Lemma mines_among_remove_mine X c :
  mine_at g c → c ∈ X → S (mines_among g (X ∖ {[c]})) = mines_among g X.
Proof.
  intros Hc HX. unfold mines_among.
  replace (filter (mine_at g) (X ∖ {[c]})) with (filter (mine_at g) X ∖ {[c]}).
  - assert ({[c]} ⊆ filter (mine_at g) X) as Hsub.
    { apply singleton_subseteq_l, elem_of_filter. done. }
    rewrite size_difference by done. rewrite size_singleton.
    apply subseteq_size in Hsub. rewrite size_singleton in Hsub. lia.
  - apply set_eq. intros d. rewrite !elem_of_difference, !elem_of_filter.
    rewrite elem_of_difference. tauto.
Qed.

Lemma mines_among_difference X Y :
  Y ⊆ X → (mines_among g (X ∖ Y) = mines_among g X - mines_among g Y)%nat.
Proof.
  intros HYX. unfold mines_among.
  replace (filter (mine_at g) (X ∖ Y))
    with (filter (mine_at g) X ∖ filter (mine_at g) Y).
  - apply size_difference. intros d. rewrite !elem_of_filter. set_solver.
  - apply set_eq. intros d. rewrite !elem_of_difference, !elem_of_filter.
    rewrite elem_of_difference. tauto.
Qed.

Lemma mines_among_mono X Y : Y ⊆ X → (mines_among g Y ≤ mines_among g X)%nat.
Proof.
  intros HYX. apply subseteq_size. intros d. rewrite !elem_of_filter. set_solver.
Qed.

Lemma sentence_true_mark_safe c s :
  ¬ mine_at g c → sentence_true g s → sentence_true g (Sentence.mark_safe c s).
Proof.
  unfold sentence_true. intros Hc Hs.
  rewrite sentence_mark_safe_cells, sentence_mark_safe_count.
  by rewrite mines_among_remove_safe.
Qed.

Lemma sentence_true_mark_mine c s :
  mine_at g c → sentence_true g s → sentence_true g (Sentence.mark_mine c s).
Proof.
  unfold sentence_true, Sentence.mark_mine. intros Hc Hs.
  case_decide as Hin; [|done]. simpl.
  pose proof (mines_among_remove_mine _ _ Hc Hin). lia.
Qed.

(** What [known_safes] returns has no mine, for a true sentence. *)
Lemma known_safes_sound s X c :
  sentence_true g s → Sentence.known_safes s = Some X → c ∈ X → ¬ mine_at g c.
Proof.
  unfold sentence_true, Sentence.known_safes. intros Hs HX Hc Hmine.
  case_decide as H0; [|done]. simplify_eq.
  assert (mines_among g (Sentence.cells s) = 0%nat) as Hz by lia.
  apply size_empty_iff in Hz.
  assert (c ∈ filter (mine_at g) (Sentence.cells s)) as Hf
    by by apply elem_of_filter.
  set_solver.
Qed.

(** What [known_mines] returns is all mines, for a true sentence. *)
Lemma known_mines_sound s X c :
  sentence_true g s → Sentence.known_mines s = Some X → c ∈ X → mine_at g c.
Proof.
  unfold sentence_true, Sentence.known_mines. intros Hs HX Hc.
  case_decide as Heq; [|done]. simplify_eq.
  assert (filter (mine_at g) (Sentence.cells s) = Sentence.cells s) as Hall.
  { apply set_subseteq_size_eq.
    - intros d. rewrite elem_of_filter. tauto.
    - unfold mines_among in Hs. lia. }
  rewrite <- Hall in Hc. by apply elem_of_filter in Hc as [? _].
Qed.

(** The subset rule derives a true sentence from true sentences. *)
Lemma sentence_true_difference A B :
  sentence_true g A → sentence_true g B →
  Sentence.cells B ⊆ Sentence.cells A →
  sentence_true g (difference A B).
Proof.
  unfold sentence_true, difference. intros HA HB Hsub. simpl.
  rewrite mines_among_difference by done.
  pose proof (mines_among_mono _ _ Hsub). lia.
Qed.

End sentence_truth.

Section soundness.
Variable g : Minesweeper.t.
Implicit Types (st : AI.t) (s : Sentence.t) (c d : cell) (l : list cell).

Lemma length_filter_split (P Q R : cell → Prop)
    `{!∀ x, Decision (P x), !∀ x, Decision (Q x), !∀ x, Decision (R x)} l :
  (∀ d, R d ↔ P d ∨ Q d) → (∀ d, ¬ (P d ∧ Q d)) →
  length (filter R l) = (length (filter P l) + length (filter Q l))%nat.
Proof.
  intros HR Hdisj. induction l as [|d l IH]; [done|].
  rewrite !filter_cons. specialize (HR d). specialize (Hdisj d).
  repeat case_decide; simpl; rewrite IH; solve [lia | tauto].
Qed.

Lemma nearby_mines_foldl c l (n : Z) :
  foldl (λ count d,
           if decide ((d.1, d.2) = c) then count
           else if decide ((0 ≤ d.1 < Minesweeper.height g) ∧
                           (0 ≤ d.2 < Minesweeper.width g))
                then if Minesweeper.board_at g d.1 d.2 then count + 1 else count
                else count) n l =
  n + Z.of_nat (length (filter
        (λ d, d ≠ c ∧ ((0 ≤ d.1 < Minesweeper.height g) ∧
                       (0 ≤ d.2 < Minesweeper.width g)) ∧ mine_at g d) l)).
Proof.
  revert n. induction l as [|d l IH]; intros n; simpl; [lia|].
  rewrite IH, filter_cons. destruct d as [i j]; simpl.
  repeat case_decide; unfold mine_at in *; simpl in *;
    destruct (Minesweeper.board_at g i j) eqn:Hb; simpl;
    solve [lia | exfalso; naive_solver].
Qed.

Lemma nearby_mines_count c :
  Minesweeper.nearby_mines g c =
  Z.of_nat (length (filter
    (λ d, d ≠ c ∧ ((0 ≤ d.1 < Minesweeper.height g) ∧
                   (0 ≤ d.2 < Minesweeper.width g)) ∧ mine_at g d) (block c))).
Proof.
  unfold Minesweeper.nearby_mines. rewrite for_block_foldl.
  rewrite (nearby_mines_foldl c (block c) 0). lia.
Qed.

Lemma sound_init : sound g (AI.init (Minesweeper.height g) (Minesweeper.width g)).
Proof. split; simpl; try done; set_solver. Qed.

Lemma sound_mark_safe c st : ¬ mine_at g c → sound g st → sound g (AI.mark_safe c st).
Proof.
  intros Hc []. split; simpl; try done.
  - intros d [?| ->%elem_of_singleton]%elem_of_union; auto.
  - apply Forall_fmap. eapply Forall_impl; [done|].
    intros s Hs. by apply sentence_true_mark_safe.
Qed.

Lemma sound_mark_mine c st : mine_at g c → sound g st → sound g (AI.mark_mine c st).
Proof.
  intros Hc []. split; simpl; try done.
  - intros d [?| ->%elem_of_singleton]%elem_of_union; auto.
  - apply Forall_fmap. eapply Forall_impl; [done|].
    intros s Hs. by apply sentence_true_mark_mine.
Qed.

Lemma sound_mark_safe_cells l st :
  Forall (λ c, ¬ mine_at g c) l → sound g st → sound g (AI.mark_safe_cells l st).
Proof.
  intros Hl Hst. unfold AI.mark_safe_cells.
  eapply (foldl_invariant (sound g)); [|exact Hl|exact Hst].
  intros st' c Hc Hst'. by apply sound_mark_safe.
Qed.

Lemma sound_mark_mine_cells l st :
  Forall (mine_at g) l → sound g st → sound g (AI.mark_mine_cells l st).
Proof.
  intros Hl Hst. unfold AI.mark_mine_cells.
  eapply (foldl_invariant (sound g)); [|exact Hl|exact Hst].
  intros st' c Hc Hst'. by apply sound_mark_mine.
Qed.

Lemma sound_lookup st i s :
  sound g st → AI.knowledge st !! i = Some s → sentence_true g s.
Proof. intros [] Hi. by eapply Forall_lookup_1. Qed.

Lemma sound_mark_from_sentence i st :
  sound g st → sound g (AI.mark_from_sentence i st).
Proof.
  intros Hst. unfold AI.mark_from_sentence.
  destruct (AI.knowledge st !! i) as [s|] eqn:Hs; [|done].
  set (st1 := match Sentence.known_safes s with
              | Some X => AI.mark_safe_cells (elements X) st
              | None => st
              end).
  assert (sound g st1) as Hst1.
  { subst st1. destruct (Sentence.known_safes s) as [X|] eqn:HX; [|done].
    apply sound_mark_safe_cells; [|done].
    apply Forall_forall. intros c Hc%elem_of_elements.
    eapply known_safes_sound; [by eapply sound_lookup|done|done]. }
  destruct (AI.knowledge st1 !! i) as [s1|] eqn:Hs1; [|done].
  destruct (Sentence.known_mines s1) as [X|] eqn:HX; [|done].
  apply sound_mark_mine_cells; [|done].
  apply Forall_forall. intros c Hc%elem_of_elements.
  eapply known_mines_sound; [by eapply sound_lookup|done|done].
Qed.

Lemma sound_mark_additional_cells st :
  sound g st → sound g (AI.mark_additional_cells st).
Proof.
  intros Hst. unfold AI.mark_additional_cells.
  eapply (foldl_invariant (sound g) (λ _, True)); [|by apply Forall_true|done].
  intros st' i _. apply sound_mark_from_sentence.
Qed.

Lemma sound_infer_new_sentences st :
  sound g st → sound g (AI.infer_new_sentences st).
Proof.
  intros []. split; simpl; try done.
  apply Forall_app. split; [done|]. apply Forall_forall. intros s Hs.
  unfold AI.new_sentences in Hs. apply elem_of_superset_loop in Hs.
  destruct Hs as [Hnil|(A & B & HA & HB & Hsub & -> & _)].
  { by apply elem_of_nil in Hnil. }
  rewrite Forall_forall in sound_knowledge0.
  apply sentence_true_difference; auto.
Qed.

Lemma sound_add_new_sentence c st :
  ¬ mine_at g c → sound g st →
  sound g (AI.add_new_sentence c (Minesweeper.nearby_mines g c) st).
Proof.
  intros Hc Hst.
  pose proof (add_new_sentence_knowledge c (Minesweeper.nearby_mines g c) st) as Hk.
  destruct Hst as [Hh Hw Hmoves Hmines Hsafes Hkb].
  split; simpl; try done.
  - intros d [?| ->%elem_of_singleton]%elem_of_union; auto.
  - intros d [?| ->%elem_of_singleton]%elem_of_union; auto.
  - change (Forall (sentence_true g)
              (AI.knowledge (AI.add_new_sentence c (Minesweeper.nearby_mines g c) st))).
    rewrite Hk. apply Forall_app. split; [done|].
    apply Forall_singleton. unfold sentence_true, mines_among; simpl.
    rewrite size_filter_list_to_set by (apply NoDup_filter, NoDup_block).
    rewrite list_filter_filter, nearby_mines_count.
    rewrite (length_filter_split
               (λ d, mine_at g d ∧ on_board st d ∧
                     (d ∉ AI.moves_made st ∪ {[c]}) ∧ (d ∉ AI.mines st))
               (λ d, on_board st d ∧ d ∈ AI.mines st)
               (λ d, d ≠ c ∧ ((0 ≤ d.1 < Minesweeper.height g) ∧
                              (0 ≤ d.2 < Minesweeper.width g)) ∧ mine_at g d)).
    + lia.
    + intros d. unfold on_board. rewrite Hh, Hw.
      pose proof (Hmoves d) as Hmv. pose proof (Hmines d) as Hmn.
      rewrite not_elem_of_union, not_elem_of_singleton.
      destruct (decide (d = c)) as [->|Hne].
      * split; [tauto|]. intros [?|[? ?]]; [tauto|]. exfalso; auto.
      * destruct (decide (d ∈ AI.mines st)), (decide (d ∈ AI.moves_made st)); tauto.
    + intros d. tauto.
Qed.

Lemma sound_add_knowledge c st :
  ¬ mine_at g c → sound g st →
  sound g (AI.add_knowledge c (Minesweeper.nearby_mines g c) st).
Proof.
  intros Hc Hst. unfold AI.add_knowledge.
  by apply sound_infer_new_sentences, sound_mark_additional_cells,
           sound_add_new_sentence.
Qed.

Lemma reachable_sound st : reachable g st → sound g st.
Proof.
  induction 1 as [|st c _ IH Hc]; [apply sound_init|by apply sound_add_knowledge].
Qed.

End soundness.

(** C8. In every state an agent made for a board reaches by
    [add_knowledge] calls the board feeds (a cell without a mine, with its
    count of nearby mines), no cell is both in [mines] and in [safes]. *)
Theorem mines_safes_disjoint (g : Minesweeper.t) (st : AI.t) :
  reachable g st → AI.mines st ∩ AI.safes st = ∅.
Proof.
  intros [_ _ _ Hmines Hsafes _]%reachable_sound.
  apply set_eq. intros c. rewrite elem_of_intersection.
  split; [|by intros ?%not_elem_of_empty].
  intros [Hm Hs]. exfalso. by apply (Hsafes c Hs), Hmines.
Qed.

Lemma mines_safes_disjoint_witness :
  let g := Minesweeper.mk 1 5 [[true; false; false; false; false]] in
  let st := AI.add_knowledge (0, 3) 0 (AI.add_knowledge (0, 1) 1 (AI.init 1 5)) in
  AI.mines st ∩ AI.safes st = ∅.
Proof.
  intros g st. apply (mines_safes_disjoint g st).
  apply (reachable_add_knowledge g _ (0, 3)).
  - apply (reachable_add_knowledge g _ (0, 1)).
    + apply (reachable_init g).
    + vm_compute. discriminate.
  - vm_compute. discriminate.
Defined.

(** ** The order in which a snapshot of a set is listed does not matter *)

Section snapshot_order.
Implicit Types (st : AI.t) (s : Sentence.t) (c d : cell) (l : list cell).

Lemma foldl_permutation {A B} (f : A → B → A) (l l' : list B) (a : A) :
  (∀ a x y, f (f a x) y = f (f a y) x) → l ≡ₚ l' → foldl f a l = foldl f a l'.
Proof.
  intros Hf Hl. revert a.
  induction Hl as [|x l l' _ IH|x y l|l1 l2 l3 _ IH1 _ IH2]; intros a; simpl.
  - done.
  - apply IH.
  - by rewrite Hf.
  - by rewrite IH1.
Qed.

Lemma sentence_mark_safe_comm c d s :
  Sentence.mark_safe c (Sentence.mark_safe d s) =
  Sentence.mark_safe d (Sentence.mark_safe c s).
Proof.
  destruct (decide (c = d)) as [->|Hne]; [done|].
  destruct (decide (d ∈ Sentence.cells s)) as [Hd|Hd],
           (decide (c ∈ Sentence.cells s)) as [Hc|Hc].
  - rewrite (sentence_mark_safe_in s d), (sentence_mark_safe_in s c) by done.
    rewrite !sentence_mark_safe_in by (simpl; set_solver).
    simpl. f_equal; set_solver.
  - rewrite (sentence_mark_safe_notin s c) by done.
    apply sentence_mark_safe_notin. rewrite sentence_mark_safe_cells. set_solver.
  - rewrite (sentence_mark_safe_notin s d) by done.
    symmetry. apply sentence_mark_safe_notin. rewrite sentence_mark_safe_cells. set_solver.
  - rewrite (sentence_mark_safe_notin s d) by done.
    rewrite (sentence_mark_safe_notin s c) by done.
    by rewrite (sentence_mark_safe_notin s d).
Qed.

Lemma sentence_mark_mine_comm c d s :
  Sentence.mark_mine c (Sentence.mark_mine d s) =
  Sentence.mark_mine d (Sentence.mark_mine c s).
Proof.
  destruct (decide (c = d)) as [->|Hne]; [done|].
  destruct (decide (d ∈ Sentence.cells s)) as [Hd|Hd],
           (decide (c ∈ Sentence.cells s)) as [Hc|Hc].
  - rewrite (sentence_mark_mine_in s d), (sentence_mark_mine_in s c) by done.
    rewrite !sentence_mark_mine_in by (simpl; set_solver).
    simpl. f_equal; solve [set_solver|lia].
  - rewrite (sentence_mark_mine_notin s c) by done.
    apply sentence_mark_mine_notin. rewrite sentence_mark_mine_cells. set_solver.
  - rewrite (sentence_mark_mine_notin s d) by done.
    symmetry. apply sentence_mark_mine_notin. rewrite sentence_mark_mine_cells. set_solver.
  - rewrite (sentence_mark_mine_notin s d) by done.
    rewrite (sentence_mark_mine_notin s c) by done.
    by rewrite (sentence_mark_mine_notin s d).
Qed.

Lemma mark_safe_cells_permutation l l' st :
  l ≡ₚ l' → AI.mark_safe_cells l st = AI.mark_safe_cells l' st.
Proof.
  apply foldl_permutation. intros st' c d. unfold AI.mark_safe; simpl.
  f_equal; [set_solver|]. rewrite <- !list_fmap_compose.
  apply list_fmap_ext. intros _ s _. apply sentence_mark_safe_comm.
Qed.

Lemma mark_mine_cells_permutation l l' st :
  l ≡ₚ l' → AI.mark_mine_cells l st = AI.mark_mine_cells l' st.
Proof.
  apply foldl_permutation. intros st' c d. unfold AI.mark_mine; simpl.
  f_equal; [set_solver|]. rewrite <- !list_fmap_compose.
  apply list_fmap_ext. intros _ s _. apply sentence_mark_mine_comm.
Qed.

End snapshot_order.

(** ** What one call of add_knowledge leaves undone *)

(** C1. The marking loop visits each sentence once and nothing is marked
    after the inference step, so a call can return with a sentence in the
    base whose cells are known and are not recorded.  On a 1x5 board with
    its one mine at (0,0), after (0,1) and (0,3) were observed the base
    holds {(0,0)} = 1 and (0,0) is not in [mines].  From a base holding
    {A,B,C} = 2 before {A,B} = 2, a call records A and B as mines and
    returns with {C} = 0 in the base and C not in [safes]. *)
Theorem add_knowledge_returns_before_fixed_point :
  (let g := Minesweeper.mk 1 5 [[true; false; false; false; false]] in
   let st :=
     AI.add_knowledge (0, 3) (Minesweeper.nearby_mines g (0, 3))
       (AI.add_knowledge (0, 1) (Minesweeper.nearby_mines g (0, 1)) (AI.init 1 5)) in
   AI.knowledge st !! 0%nat = Some (Sentence.mk {[(0, 0)]} 1) ∧
   Sentence.known_mines (Sentence.mk {[(0, 0)]} 1) = Some {[(0, 0)]} ∧
   (0, 0) ∉ AI.mines st) ∧
  (let st0 :=
     AI.mk 8 8 ∅ ∅ ∅ [Sentence.mk {[(0, 0); (0, 1); (0, 2)]} 2;
                      Sentence.mk {[(0, 0); (0, 1)]} 2] in
   let st := AI.add_knowledge (5, 5) 0 st0 in
   AI.mines st = {[(0, 0); (0, 1)]} ∧
   AI.knowledge st !! 0%nat = Some (Sentence.mk {[(0, 2)]} 0) ∧
   Sentence.known_safes (Sentence.mk {[(0, 2)]} 0) = Some {[(0, 2)]} ∧
   (0, 2) ∉ AI.safes st).
Proof. repeat split; by_evaluation. Qed.

(** * Further properties of the agent *)

(** ** Invariants of every sequence of calls *)

Section invariants.
Implicit Types (st : AI.t) (s : Sentence.t) (c d : cell) (l : list cell).

(** What [mark_mine] and [mark_safe] keep, the marking loop keeps. *)
Lemma mark_additional_cells_invariant (P : AI.t → Prop) st :
  (∀ c st, P st → P (AI.mark_mine c st)) →
  (∀ c st, P st → P (AI.mark_safe c st)) →
  P st → P (AI.mark_additional_cells st).
Proof.
  intros Hmine Hsafe. unfold AI.mark_additional_cells.
  apply (foldl_invariant P (λ _, True)); [|by apply Forall_true].
  clear st. intros st i _ Hst. unfold AI.mark_from_sentence.
  assert (∀ l st0, P st0 → P (AI.mark_safe_cells l st0)) as Hsafes.
  { intros l st0. unfold AI.mark_safe_cells.
    apply (foldl_invariant P (λ _, True)); [|by apply Forall_true].
    intros ? ? _. apply Hsafe. }
  assert (∀ l st0, P st0 → P (AI.mark_mine_cells l st0)) as Hmines.
  { intros l st0. unfold AI.mark_mine_cells.
    apply (foldl_invariant P (λ _, True)); [|by apply Forall_true].
    intros ? ? _. apply Hmine. }
  destruct (AI.knowledge st !! i) as [s|]; [|done].
  set (st1 := match Sentence.known_safes s with
              | Some X => AI.mark_safe_cells (elements X) st
              | None => st
              end).
  assert (P st1) as Hst1.
  { subst st1. destruct (Sentence.known_safes s); [by apply Hsafes|done]. }
  destruct (AI.knowledge st1 !! i) as [s1|]; [|done].
  destruct (Sentence.known_mines s1); [by apply Hmines|done].
Qed.

(** What the four steps keep, every sequence of calls keeps. *)
Lemma run_invariant (P : AI.t → Prop) :
  (∀ c st, P st → P (AI.mark_mine c st)) →
  (∀ c st, P st → P (AI.mark_safe c st)) →
  (∀ c n st, P st → P (AI.add_new_sentence c n st)) →
  (∀ st, P st → P (AI.infer_new_sentences st)) →
  ∀ ops st, P st → P (run ops st).
Proof.
  intros Hmine Hsafe Hnew Hinfer ops st. unfold run.
  apply (foldl_invariant P (λ _, True)); [|by apply Forall_true].
  clear st. intros st [c|c|c n] _ Hst; simpl.
  - by apply Hmine.
  - by apply Hsafe.
  - unfold AI.add_knowledge.
    by apply Hinfer, mark_additional_cells_invariant, Hnew.
Qed.

Lemma new_sentence_elem kb s :
  s ∈ AI.new_sentences kb →
  ∃ A B, A ∈ kb ∧ B ∈ kb ∧ Sentence.cells B ⊆ Sentence.cells A ∧
         s = difference A B ∧ s ∉ kb.
Proof.
  unfold AI.new_sentences. rewrite elem_of_superset_loop.
  intros [Hnil|H]; [by apply elem_of_nil in Hnil|done].
Qed.

Lemma cells_all_mark_mine Q c kb :
  cells_all Q kb → cells_all Q (Sentence.mark_mine c <$> kb).
Proof.
  intros Hkb s' d (s & -> & Hs)%list_elem_of_fmap.
  rewrite sentence_mark_mine_cells, elem_of_difference. intros [Hd _].
  by apply (Hkb s).
Qed.

Lemma cells_all_mark_safe Q c kb :
  cells_all Q kb → cells_all Q (Sentence.mark_safe c <$> kb).
Proof.
  intros Hkb s' d (s & -> & Hs)%list_elem_of_fmap.
  rewrite sentence_mark_safe_cells, elem_of_difference. intros [Hd _].
  by apply (Hkb s).
Qed.

Lemma cells_all_new_sentences Q kb :
  cells_all Q kb → cells_all Q (kb ++ AI.new_sentences kb).
Proof.
  intros Hkb s d [Hs|Hs]%elem_of_app; [by apply (Hkb s)|].
  apply new_sentence_elem in Hs as (A & B & HA & _ & _ & -> & _).
  simpl. rewrite elem_of_difference. intros [Hd _]. by apply (Hkb A).
Qed.

End invariants.

(** X1. No call ever takes a cell out of [moves_made], [mines] or [safes],
    and none changes the size of the grid. *)
Theorem sets_only_grow (ops : list op) (st : AI.t) :
  AI.height (run ops st) = AI.height st ∧
  AI.width (run ops st) = AI.width st ∧
  AI.moves_made st ⊆ AI.moves_made (run ops st) ∧
  AI.mines st ⊆ AI.mines (run ops st) ∧
  AI.safes st ⊆ AI.safes (run ops st).
Proof. destruct (grows_run ops st). done. Qed.

(** X2. After [mark_mine(cell)] no sentence of the base has the cell, and
    likewise after [mark_safe(cell)]. *)
Theorem marked_cell_leaves_every_sentence (c : cell) (st : AI.t) (s : Sentence.t) :
  (s ∈ AI.knowledge (AI.mark_mine c st) → c ∉ Sentence.cells s) ∧
  (s ∈ AI.knowledge (AI.mark_safe c st) → c ∉ Sentence.cells s).
Proof.
  split; simpl; intros (s0 & -> & _)%list_elem_of_fmap.
  - rewrite sentence_mark_mine_cells, elem_of_difference, elem_of_singleton. tauto.
  - rewrite sentence_mark_safe_cells, elem_of_difference, elem_of_singleton. tauto.
Qed.

(** X3. If no sentence of the base has a cell of [mines], this stays so
    through every sequence of calls: a recorded mine is never mentioned by a
    sentence again. *)
Theorem sentences_never_mention_mines (ops : list op) (st : AI.t) :
  (∀ s d, s ∈ AI.knowledge st → d ∈ Sentence.cells s → d ∉ AI.mines st) →
  ∀ s d, s ∈ AI.knowledge (run ops st) → d ∈ Sentence.cells s →
         d ∉ AI.mines (run ops st).
Proof.
  revert st.
  apply (run_invariant (λ st, cells_all (λ d, d ∉ AI.mines st) (AI.knowledge st))).
  - intros c st Hst s' d (s & -> & Hs)%list_elem_of_fmap. simpl.
    rewrite sentence_mark_mine_cells, elem_of_difference, elem_of_singleton.
    intros [Hd Hne]. rewrite not_elem_of_union, elem_of_singleton.
    split; [by apply (Hst s)|done].
  - intros c st Hst. by apply cells_all_mark_safe.
  - intros c n st Hst s d. rewrite add_new_sentence_knowledge.
    intros [Hs|Hs%list_elem_of_singleton]%elem_of_app; [by apply (Hst s)|].
    subst s. simpl. rewrite elem_of_list_to_set, list_elem_of_filter. tauto.
  - intros st Hst. by apply cells_all_new_sentences.
Qed.

Lemma sentences_never_mention_mines_witness :
  (0, 1) ∉ AI.mines (run [AddKnowledge (0, 0) 1; MarkMine (2, 2)] (AI.init 3 3)).
Proof.
  refine (sentences_never_mention_mines
            [AddKnowledge (0, 0) 1; MarkMine (2, 2)] (AI.init 3 3) _
            (Sentence.mk {[(0, 1); (1, 0); (1, 1)]} 1) (0, 1) _ _).
  - simpl. intros s d Hs. by apply elem_of_nil in Hs.
  - by_evaluation.
  - by_evaluation.
Defined.

(** X4. If every cell of every sentence is on the grid, this stays so
    through every sequence of calls: the sentence built for an observation
    has cells of the grid only, whatever cell is observed. *)
Theorem sentences_stay_on_board (ops : list op) (st : AI.t) :
  (∀ s d, s ∈ AI.knowledge st → d ∈ Sentence.cells s → on_board st d) →
  ∀ s d, s ∈ AI.knowledge (run ops st) → d ∈ Sentence.cells s →
         on_board (run ops st) d.
Proof.
  revert st.
  apply (run_invariant (λ st, cells_all (on_board st) (AI.knowledge st))).
  - intros c st Hst. by apply cells_all_mark_mine.
  - intros c st Hst. by apply cells_all_mark_safe.
  - intros c n st Hst s d. rewrite add_new_sentence_knowledge.
    intros [Hs|Hs%list_elem_of_singleton]%elem_of_app; [by apply (Hst s)|].
    subst s. simpl. rewrite elem_of_list_to_set, list_elem_of_filter.
    unfold on_board. simpl. tauto.
  - intros st Hst. by apply cells_all_new_sentences.
Qed.

Lemma sentences_stay_on_board_witness :
  on_board (run [AddKnowledge (0, 0) 1; MarkSafe (5, 5); AddKnowledge (2, 3) 1]
                (AI.init 3 3)) (1, 2).
Proof.
  refine (sentences_stay_on_board
            [AddKnowledge (0, 0) 1; MarkSafe (5, 5); AddKnowledge (2, 3) 1]
            (AI.init 3 3) _ (Sentence.mk {[(1, 2); (2, 2)]} 1) (1, 2) _ _).
  - simpl. intros s d Hs. by apply elem_of_nil in Hs.
  - by_evaluation.
  - by_evaluation.
Defined.

(** X5. If every cell of [moves_made] is in [safes], this stays so through
    every sequence of calls. *)
Theorem moves_made_are_safes (ops : list op) (st : AI.t) :
  AI.moves_made st ⊆ AI.safes st →
  AI.moves_made (run ops st) ⊆ AI.safes (run ops st).
Proof.
  revert st. apply (run_invariant (λ st, AI.moves_made st ⊆ AI.safes st)).
  - intros c st Hst. done.
  - intros c st Hst. simpl. by apply union_subseteq_l'.
  - intros c n st Hst. simpl. by apply union_mono_r.
  - intros st Hst. done.
Qed.

Lemma moves_made_are_safes_witness :
  let ops := [AddKnowledge (0, 0) 1; MarkMine (1, 1); AddKnowledge (2, 2) 1] in
  AI.moves_made (run ops (AI.init 3 3)) ⊆ AI.safes (run ops (AI.init 3 3)).
Proof.
  intros ops. apply (moves_made_are_safes ops (AI.init 3 3)). simpl. done.
Defined.

(** X6. When [add_knowledge] returns, the base holds the sentence without
    cells and with count 0, whatever the state and the observation were:
    every sentence is paired with itself in the inference step. *)
Theorem vacuous_sentence_after_add_knowledge (c : cell) (n : Z) (st : AI.t) :
  Sentence.mk ∅ 0 ∈ AI.knowledge (AI.add_knowledge c n st).
Proof.
  unfold AI.add_knowledge.
  set (st2 := AI.mark_additional_cells (AI.add_new_sentence c n st)).
  assert (∃ A, A ∈ AI.knowledge st2) as [A HA].
  { pose proof (kb_kept_length _ _
      (grows_knowledge _ _ (grows_mark_additional_cells (AI.add_new_sentence c n st))))
      as Hlen.
    fold st2 in Hlen. rewrite add_new_sentence_knowledge, length_app in Hlen.
    simpl in Hlen. destruct (AI.knowledge st2) as [|A kb] eqn:Hkb.
    - simpl in Hlen. lia.
    - exists A. apply elem_of_cons. by left. }
  simpl. apply elem_of_app.
  destruct (decide (Sentence.mk ∅ 0 ∈ AI.knowledge st2)) as [Hin|Hnotin]; [by left|].
  right. unfold AI.new_sentences. apply elem_of_superset_loop. right.
  exists A, A. repeat split; try done.
  unfold difference. f_equal; [|lia].
  clear. set_solver.
Qed.

(** ** What a board-fed agent knows is true *)

(** X7. In every state an agent reaches when fed by its board, the cells
    of [mines] have a mine, the cells of [safes] and of [moves_made] have
    none, and every sentence of the base states the number of mines among
    its cells; so its count lies between 0 and the number of its cells. *)
Theorem knowledge_true_of_board (g : Minesweeper.t) (st : AI.t) :
  reachable g st →
  (∀ c, c ∈ AI.mines st → mine_at g c) ∧
  (∀ c, c ∈ AI.safes st → ¬ mine_at g c) ∧
  (∀ c, c ∈ AI.moves_made st → ¬ mine_at g c) ∧
  (∀ s, s ∈ AI.knowledge st →
        Sentence.count s = Z.of_nat (size (filter (mine_at g) (Sentence.cells s))) ∧
        0 ≤ Sentence.count s ≤ Z.of_nat (size (Sentence.cells s))).
Proof.
  intros [_ _ Hmoves Hmines Hsafes Hkb]%reachable_sound.
  repeat split; try done.
  - rewrite Forall_forall in Hkb. symmetry. by apply Hkb.
  - rewrite Forall_forall in Hkb. specialize (Hkb s H).
    unfold sentence_true in Hkb. lia.
  - rewrite Forall_forall in Hkb. specialize (Hkb s H).
    unfold sentence_true, mines_among in Hkb. rewrite <- Hkb.
    apply inj_le, subseteq_size. intros d. rewrite elem_of_filter. tauto.
Qed.

Lemma knowledge_true_of_board_witness :
  let g := Minesweeper.mk 1 5 [[true; false; false; false; false]] in
  let st := AI.add_knowledge (0, 2) 0 (AI.add_knowledge (0, 1) 1 (AI.init 1 5)) in
  (∀ c, c ∈ AI.mines st → mine_at g c) ∧
  (∀ c, c ∈ AI.safes st → ¬ mine_at g c) ∧
  (∀ c, c ∈ AI.moves_made st → ¬ mine_at g c) ∧
  (∀ s, s ∈ AI.knowledge st →
        Sentence.count s = Z.of_nat (size (filter (mine_at g) (Sentence.cells s))) ∧
        0 ≤ Sentence.count s ≤ Z.of_nat (size (Sentence.cells s))).
Proof.
  intros g st. apply (knowledge_true_of_board g st).
  apply (reachable_add_knowledge g _ (0, 2)).
  - apply (reachable_add_knowledge g _ (0, 1)).
    + apply (reachable_init g).
    + vm_compute. discriminate.
  - vm_compute. discriminate.
Defined.

(** X8. For an agent fed by its board, a cell that [make_safe_move]
    returns has no mine, in whatever order the set of safe cells is
    listed. *)
Theorem safe_move_has_no_mine (g : Minesweeper.t) (st : AI.t)
    (safe_list : list cell) (c : cell) :
  reachable g st →
  (∀ d, d ∈ safe_list ↔ d ∈ AI.safes st) →
  (AI.make_safe_move_from safe_list st).1 = Return (Some c) →
  ¬ mine_at g c.
Proof.
  intros [_ _ _ _ Hsafes _]%reachable_sound Hlist. unfold AI.make_safe_move_from.
  simpl.
  destruct (safe_move_loop_spec safe_list (AI.moves_made st) 0 (length safe_list))
    as (res & -> & Hres); [lia|].
  intros [= ->]. destruct Hres as [Hc _]. by apply Hsafes, Hlist.
Qed.

Lemma safe_move_has_no_mine_witness :
  let g := Minesweeper.mk 1 5 [[true; false; false; false; false]] in
  let st := AI.add_knowledge (0, 3) 0 (AI.init 1 5) in
  ¬ mine_at g (0, 4).
Proof.
  intros g st.
  apply (safe_move_has_no_mine g st (elements (AI.safes st)) (0, 4)).
  - apply (reachable_add_knowledge g _ (0, 3)).
    + apply (reachable_init g).
    + vm_compute. discriminate.
  - intros d. apply elem_of_elements.
  - vm_compute. reflexivity.
Defined.

(** X9. The inference step derives true sentences from a base of true
    sentences: whatever board the sentences of the base are true of, the
    sentences [new_sentences] adds are true of it. *)
Theorem new_sentences_true (g : Minesweeper.t) (kb : list Sentence.t) :
  Forall (sentence_true g) kb → Forall (sentence_true g) (AI.new_sentences kb).
Proof.
  rewrite !Forall_forall. intros Hkb s Hs.
  apply new_sentence_elem in Hs as (A & B & HA & HB & Hsub & -> & _).
  apply sentence_true_difference; auto.
Qed.

Lemma new_sentences_true_witness :
  let g := Minesweeper.mk 1 3 [[true; false; true]] in
  let kb := [Sentence.mk {[(0, 0); (0, 1); (0, 2)]} 2; Sentence.mk {[(0, 0); (0, 1)]} 1] in
  Forall (sentence_true g) (AI.new_sentences kb).
Proof.
  intros g kb. apply (new_sentences_true g kb).
  repeat constructor; vm_compute; reflexivity.
Defined.

(** X10. For a sentence that is true of the board, every cell
    [known_mines] returns has a mine and every cell [known_safes] returns
    has none. *)
Theorem known_cells_true (g : Minesweeper.t) (s : Sentence.t) (X : gset cell) (c : cell) :
  sentence_true g s → c ∈ X →
  (Sentence.known_mines s = Some X → mine_at g c) ∧
  (Sentence.known_safes s = Some X → ¬ mine_at g c).
Proof.
  intros Hs Hc. split; intros HX.
  - by eapply known_mines_sound.
  - by eapply known_safes_sound.
Qed.

Lemma known_cells_true_witness :
  let g := Minesweeper.mk 1 3 [[true; false; true]] in
  let s := Sentence.mk {[(0, 0); (0, 2)]} 2 in
  (Sentence.known_mines s = Some {[(0, 0); (0, 2)]} → mine_at g (0, 2)) ∧
  (Sentence.known_safes s = Some {[(0, 0); (0, 2)]} → ¬ mine_at g (0, 2)).
Proof.
  intros g s. apply (known_cells_true g s {[(0, 0); (0, 2)]} (0, 2)).
  - vm_compute. reflexivity.
  - by_evaluation.
Defined.

(** ** The board's count *)

Lemma length_block c : length (block c) = 9%nat.
Proof. reflexivity. Qed.

(** X11. [nearby_mines] returns the number of cells with a mine among the
    cells of the board within one row and one column of the cell, the cell
    itself left out; the count lies between 0 and 8. *)
Theorem nearby_mines_spec (g : Minesweeper.t) (c : cell) (N : gset cell) :
  (∀ d, d ∈ N ↔ near c d) →
  Minesweeper.nearby_mines g c =
    Z.of_nat (size (filter
      (λ d, d ≠ c ∧ ((0 ≤ d.1 < Minesweeper.height g) ∧
                     (0 ≤ d.2 < Minesweeper.width g)) ∧ mine_at g d) N)) ∧
  0 ≤ Minesweeper.nearby_mines g c ≤ 8.
Proof.
  intros HN.
  assert (N = list_to_set (block c)) as ->.
  { apply set_eq. intros d. rewrite HN, elem_of_list_to_set, elem_of_block. done. }
  rewrite nearby_mines_count.
  rewrite size_filter_list_to_set by apply NoDup_block.
  split; [done|]. split; [lia|].
  match goal with
  | |- context [filter ?Q (block c)] =>
      assert (length (filter Q (block c)) < length (block c))%nat as Hlt
  end.
  { apply (length_filter_lt _ _ c); [apply block_self|tauto]. }
  rewrite length_block in Hlt. lia.
Qed.

Lemma nearby_mines_spec_witness :
  let g := Minesweeper.mk 3 3 [[true; false; false]; [false; false; true];
                               [false; true; false]] in
  let N : gset cell := list_to_set (block (1, 1)) in
  Minesweeper.nearby_mines g (1, 1) =
    Z.of_nat (size (filter
      (λ d, d ≠ (1, 1) ∧ ((0 ≤ d.1 < Minesweeper.height g) ∧
                          (0 ≤ d.2 < Minesweeper.width g)) ∧ mine_at g d) N)) ∧
  0 ≤ Minesweeper.nearby_mines g (1, 1) ≤ 8.
Proof.
  intros g N. apply (nearby_mines_spec g (1, 1) N).
  intros d. unfold N. rewrite elem_of_list_to_set. apply elem_of_block.
Defined.

(** ** An observation with count 0 *)

Section zero_count.
Variable g : Minesweeper.t.
Implicit Types (st : AI.t) (s : Sentence.t) (c d : cell) (l : list cell).

Lemma filter_none {A} (P : A → Prop) `{!∀ x, Decision (P x)} (l : list A) :
  (∀ x, x ∈ l → ¬ P x) → filter P l = [].
Proof.
  induction l as [|x l IH]; intros Hl; [done|].
  rewrite filter_cons_False.
  - apply IH. intros y Hy. apply Hl, elem_of_cons. by right.
  - apply Hl, elem_of_cons. by left.
Qed.

Lemma nearby_zero_no_mine c d :
  Minesweeper.nearby_mines g c = 0 → near c d → d ≠ c →
  (0 ≤ d.1 < Minesweeper.height g) ∧ (0 ≤ d.2 < Minesweeper.width g) →
  ¬ mine_at g d.
Proof.
  rewrite nearby_mines_count. intros Hz Hnear Hne Hb Hmine.
  assert (d ∈ block c) as Hd by by apply elem_of_block.
  revert Hd. eapply filter_nil_not_elem_of.
  - apply nil_length_inv. apply Nat2Z.inj. exact Hz.
  - simpl. tauto.
Qed.

Lemma mark_safe_cells_safes l st d : d ∈ l → d ∈ AI.safes (AI.mark_safe_cells l st).
Proof.
  revert st. induction l as [|e l IH]; intros st Hd.
  { by apply elem_of_nil in Hd. }
  apply elem_of_cons in Hd as [->|Hd]; simpl.
  - apply (grows_safes _ _ (grows_mark_safe_cells l (AI.mark_safe e st))).
    simpl. apply elem_of_union_r, elem_of_singleton. done.
  - by apply IH.
Qed.

Lemma zero_pending_mark_safe k N c st :
  ¬ mine_at g c → zero_pending g k N st → zero_pending g k N (AI.mark_safe c st).
Proof.
  intros Hc (Hsound & s & Hs & Hcount & HN). split; [by apply sound_mark_safe|].
  exists (Sentence.mark_safe c s). simpl. split; [by rewrite list_lookup_fmap, Hs|].
  split; [by rewrite sentence_mark_safe_count|].
  intros d Hd. rewrite sentence_mark_safe_cells, elem_of_difference,
    elem_of_union, elem_of_singleton.
  destruct (decide (d = c)) as [->|Hne]; [by right; right|].
  destruct (HN d Hd) as [?|?]; [by left|by right; left].
Qed.

Lemma zero_pending_mark_mine k N c st :
  mine_at g c → zero_pending g k N st → zero_pending g k N (AI.mark_mine c st).
Proof.
  intros Hc (Hsound & s & Hs & Hcount & HN). split; [by apply sound_mark_mine|].
  exists s. simpl. split; [|done].
  rewrite list_lookup_fmap, Hs. simpl. f_equal.
  apply sentence_mark_mine_notin. intros Hin.
  apply (known_safes_sound g s (Sentence.cells s) c); [by eapply sound_lookup| |done|done].
  unfold Sentence.known_safes. by rewrite decide_True.
Qed.

Lemma zero_pending_mark_from_sentence k N i st :
  zero_pending g k N st → zero_pending g k N (AI.mark_from_sentence i st).
Proof.
  intros Hst. unfold AI.mark_from_sentence.
  destruct (AI.knowledge st !! i) as [s|] eqn:Hs; [|done].
  set (st1 := match Sentence.known_safes s with
              | Some X => AI.mark_safe_cells (elements X) st
              | None => st
              end).
  assert (zero_pending g k N st1) as Hst1.
  { subst st1. destruct (Sentence.known_safes s) as [X|] eqn:HX; [|done].
    unfold AI.mark_safe_cells.
    eapply (foldl_invariant (zero_pending g k N) (λ c, ¬ mine_at g c)); [| |done].
    - intros st' c Hc Hst'. by apply zero_pending_mark_safe.
    - apply Forall_forall. intros c Hc%elem_of_elements.
      eapply known_safes_sound; [|done|done].
      eapply sound_lookup; [apply Hst|done]. }
  destruct (AI.knowledge st1 !! i) as [s1|] eqn:Hs1; [|done].
  destruct (Sentence.known_mines s1) as [X|] eqn:HX; [|done].
  unfold AI.mark_mine_cells.
  eapply (foldl_invariant (zero_pending g k N) (mine_at g)); [| |done].
  - intros st' c Hc Hst'. by apply zero_pending_mark_mine.
  - apply Forall_forall. intros c Hc%elem_of_elements.
    eapply known_mines_sound; [|done|done].
    eapply sound_lookup; [apply Hst1|done].
Qed.

Lemma zero_pending_visited k N st d :
  zero_pending g k N st → d ∈ N → d ∈ AI.safes (AI.mark_from_sentence k st).
Proof.
  intros (_ & s & Hs & Hcount & HN) Hd.
  apply (grows_safes (AI.mark_safe_cells (elements (Sentence.cells s)) st)).
  - unfold AI.mark_from_sentence. rewrite Hs.
    unfold Sentence.known_safes. rewrite decide_True by done.
    destruct (AI.knowledge (AI.mark_safe_cells _ st) !! k) as [s1|]; [|reflexivity].
    destruct (Sentence.known_mines s1); [|reflexivity].
    apply grows_mark_mine_cells.
  - destruct (HN d Hd) as [Hin|Hin].
    + by apply mark_safe_cells_safes, elem_of_elements.
    + by apply (grows_safes _ _ (grows_mark_safe_cells _ st)).
Qed.

Lemma reachable_moves_made_safes st :
  reachable g st → AI.moves_made st ⊆ AI.safes st.
Proof.
  induction 1 as [|st c _ IH _]; [done|].
  revert IH.
  apply (run_invariant (λ st, AI.moves_made st ⊆ AI.safes st)
           (λ _ _ H, H)
           (λ c st H, union_subseteq_l' _ _ _ H)
           (λ c n st H, union_mono_r _ _ _ H)
           (λ _ H, H)
           [AddKnowledge c (Minesweeper.nearby_mines g c)] st).
Qed.

End zero_count.

(** X12. For an agent fed by its board, observing a cell whose count of
    nearby mines is 0 leaves the cell and every cell of the grid within one
    row and one column of it in [safes]. *)
Theorem zero_count_neighbours_safe (g : Minesweeper.t) (st : AI.t) (c d : cell) :
  reachable g st → ¬ mine_at g c → Minesweeper.nearby_mines g c = 0 →
  near c d → on_board st d →
  d ∈ AI.safes (AI.add_knowledge c (Minesweeper.nearby_mines g c) st).
Proof.
  intros Hreach Hc Hz Hnear Hboard.
  pose proof (reachable_sound g st Hreach) as Hsound.
  pose proof (reachable_moves_made_safes g st Hreach) as Hms.
  assert (∀ e, e ∈ AI.mines st → near c e → on_board st e → False) as Hnomine.
  { intros e He Hne Hbe.
    assert (mine_at g e) as Hme by by apply (sound_mines g st Hsound).
    apply (nearby_zero_no_mine g c e); try done.
    - by intros ->.
    - unfold on_board in Hbe.
      by rewrite (sound_height g st Hsound), (sound_width g st Hsound) in Hbe. }
  destruct (decide (d ∈ AI.moves_made st)) as [Hmv|Hmv].
  { apply (grows_safes _ _ (grows_add_knowledge c _ st)). by apply Hms. }
  set (st1 := AI.add_new_sentence c (Minesweeper.nearby_mines g c) st).
  unfold AI.add_knowledge. fold st1. simpl.
  destruct (decide (d = c)) as [->|Hdc].
  { apply (grows_safes _ _ (grows_mark_additional_cells st1)).
    simpl. apply elem_of_union_r, elem_of_singleton. done. }
  destruct (decide (d ∈ AI.mines st)) as [Hmn|Hmn].
  { exfalso. by apply (Hnomine d). }
  set (N := list_to_set
              (filter (λ d, on_board st d ∧ (d ∉ AI.moves_made st ∪ {[c]})
                            ∧ (d ∉ AI.mines st)) (block c)) : gset cell).
  assert (AI.knowledge st1 = AI.knowledge st ++ [Sentence.mk N 0]) as Hk.
  { unfold st1. rewrite add_new_sentence_knowledge. do 3 f_equal.
    rewrite filter_none; [simpl; lia|].
    intros e He [Hbe Hme]. apply elem_of_block in He. by apply (Hnomine e). }
  assert (d ∈ N) as HdN.
  { unfold N. rewrite elem_of_list_to_set, list_elem_of_filter, elem_of_block.
    rewrite not_elem_of_union, not_elem_of_singleton. done. }
  assert (zero_pending g (length (AI.knowledge st)) N st1) as Hpend.
  { split; [by apply sound_add_new_sentence|].
    exists (Sentence.mk N 0). rewrite Hk.
    split; [by apply list_lookup_middle|]. split; [done|]. by left. }
  unfold AI.mark_additional_cells. rewrite Hk, length_app. simpl.
  rewrite Nat.add_1_r, seq_S, foldl_app. simpl.
  apply (zero_pending_visited g _ N); [|done].
  eapply (foldl_invariant (zero_pending g _ N) (λ _, True));
    [|by apply Forall_true|exact Hpend].
  intros st' i _. apply zero_pending_mark_from_sentence.
Qed.

Lemma zero_count_neighbours_safe_witness :
  let g := Minesweeper.mk 3 3 [[false; false; false]; [false; false; false];
                               [false; false; true]] in
  (0, 1) ∈ AI.safes (AI.add_knowledge (0, 0) (Minesweeper.nearby_mines g (0, 0))
                       (AI.init 3 3)).
Proof.
  intros g.
  apply (zero_count_neighbours_safe g (AI.init 3 3) (0, 0) (0, 1)).
  - apply (reachable_init g).
  - vm_compute. discriminate.
  - vm_compute. reflexivity.
  - unfold near. simpl. lia.
  - unfold on_board. simpl. lia.
Defined.

(** ** Order of marking, and contradicting marks *)

(** X13. Marking the cells of a snapshot of a set gives the same state in
    whatever order the snapshot lists the set. *)
Theorem marking_order_irrelevant (X : gset cell) (l : list cell) (st : AI.t) :
  NoDup l → (∀ d, d ∈ l ↔ d ∈ X) →
  AI.mark_safe_cells l st = AI.mark_safe_cells (elements X) st ∧
  AI.mark_mine_cells l st = AI.mark_mine_cells (elements X) st.
Proof.
  intros Hnd Hl.
  assert (l ≡ₚ elements X) as Hperm.
  { apply NoDup_Permutation; [done|apply NoDup_elements|].
    intros d. by rewrite Hl, elem_of_elements. }
  split.
  - by apply mark_safe_cells_permutation.
  - by apply mark_mine_cells_permutation.
Qed.

Lemma marking_order_irrelevant_witness :
  let X : gset cell := {[(0, 0); (0, 1); (1, 1)]} in
  let l := [(1, 1); (0, 0); (0, 1)] in
  let st := AI.add_knowledge (0, 0) 1 (AI.init 3 3) in
  AI.mark_safe_cells l st = AI.mark_safe_cells (elements X) st ∧
  AI.mark_mine_cells l st = AI.mark_mine_cells (elements X) st.
Proof.
  intros X l st. apply (marking_order_irrelevant X l st).
  - by_evaluation.
  - intros d. unfold l, X. rewrite !elem_of_cons, elem_of_nil.
    rewrite !elem_of_union, !elem_of_singleton. tauto.
Defined.

(** X14. A mark that contradicts an earlier one changes no sentence: after
    [mark_mine(cell)], [mark_safe(cell)] leaves every sentence as it is, and
    the other way round; the sentences keep what the first mark made of
    them. *)
Theorem contradicting_mark_changes_no_sentence (c : cell) (st : AI.t) :
  AI.knowledge (AI.mark_safe c (AI.mark_mine c st)) = AI.knowledge (AI.mark_mine c st) ∧
  AI.knowledge (AI.mark_mine c (AI.mark_safe c st)) = AI.knowledge (AI.mark_safe c st).
Proof.
  split; simpl; rewrite <- list_fmap_compose; apply list_fmap_ext; intros _ s _; simpl.
  - apply sentence_mark_safe_notin. rewrite sentence_mark_mine_cells.
    rewrite elem_of_difference, elem_of_singleton. tauto.
  - apply sentence_mark_mine_notin. rewrite sentence_mark_safe_cells.
    rewrite elem_of_difference, elem_of_singleton. tauto.
Qed.

(** ** Growth of the base in one call *)

Section growth.
Implicit Types (st : AI.t) (s : Sentence.t) (kb acc : list Sentence.t).

Lemma length_subset_loop kb A l acc :
  (length (foldl (AI.subset_step kb A) acc l) ≤ length acc + length l)%nat.
Proof.
  revert acc. induction l as [|B l IH]; intros acc; simpl; [lia|].
  etrans; [apply IH|]. unfold AI.subset_step.
  repeat case_decide; rewrite ?length_app; simpl; lia.
Qed.

Lemma length_superset_loop kb l acc :
  (length (foldl (λ acc super, foldl (AI.subset_step kb super) acc kb) acc l)
   ≤ length acc + length l * length kb)%nat.
Proof.
  revert acc. induction l as [|A l IH]; intros acc; simpl; [lia|].
  etrans; [apply IH|]. pose proof (length_subset_loop kb A kb acc). lia.
Qed.

Lemma mark_additional_cells_length st :
  length (AI.knowledge (AI.mark_additional_cells st)) = length (AI.knowledge st).
Proof.
  apply (mark_additional_cells_invariant
           (λ st', length (AI.knowledge st') = length (AI.knowledge st))); [| |done].
  - intros c st' <-. simpl. apply length_fmap.
  - intros c st' <-. simpl. apply length_fmap.
Qed.

End growth.

(** X15. One call of [add_knowledge] makes the base longer by the sentence
    of the observation and by at most one sentence for every ordered pair of
    sentences: from [k] sentences to at least [k + 1] and at most
    [(k + 1) + (k + 1) * (k + 1)]. *)
Theorem add_knowledge_growth (c : cell) (n : Z) (st : AI.t) :
  (S (length (AI.knowledge st)) ≤ length (AI.knowledge (AI.add_knowledge c n st)) ∧
   length (AI.knowledge (AI.add_knowledge c n st)) ≤
     S (length (AI.knowledge st)) +
     S (length (AI.knowledge st)) * S (length (AI.knowledge st)))%nat.
Proof.
  unfold AI.add_knowledge. simpl. rewrite length_app.
  rewrite mark_additional_cells_length.
  rewrite add_new_sentence_knowledge, length_app. simpl.
  set (kb := AI.knowledge (AI.mark_additional_cells (AI.add_new_sentence c n st))).
  assert (length kb = S (length (AI.knowledge st))) as Hkb.
  { unfold kb. rewrite mark_additional_cells_length, add_new_sentence_knowledge,
      length_app. simpl. lia. }
  pose proof (length_superset_loop kb kb []) as Hnew. simpl in Hnew.
  unfold AI.new_sentences. rewrite Hkb in Hnew. lia.
Qed.

(** * The game: construction, is_mine, won *)

Section game.
Implicit Types (g : Game.t) (c d : cell) (h w : Z) (draws : list cell).

Lemma foldl_append_const {A B} (x : A) (l : list B) (acc : list A) :
  foldl (λ acc _, acc ++ [x]) acc l = acc ++ replicate (length l) x.
Proof.
  revert acc. induction l as [|y l IH]; intros acc; simpl.
  - by rewrite app_nil_r.
  - rewrite IH, <- app_assoc. done.
Qed.

Lemma empty_board_replicate h w :
  Game.empty_board h w = replicate (Z.to_nat h) (replicate (Z.to_nat w) false).
Proof.
  unfold Game.empty_board.
  rewrite (foldl_append_const false (seqZ 0 w) []).
  rewrite (foldl_append_const _ (seqZ 0 h) []). simpl.
  by rewrite !length_seqZ.
Qed.

Lemma board_at_lookup g c row b :
  0 ≤ c.1 → 0 ≤ c.2 →
  Game.board g !! Z.to_nat c.1 = Some row → row !! Z.to_nat c.2 = Some b →
  Minesweeper.board_at (Game.to_minesweeper g) c.1 c.2 = b.
Proof.
  intros _ _ Hrow Hb. unfold Minesweeper.board_at. simpl.
  rewrite Hrow. simpl. by rewrite Hb.
Qed.

Lemma well_formed_lookup h w g c :
  well_formed h w g → in_range h w c →
  ∃ row b, Game.board g !! Z.to_nat c.1 = Some row ∧ row !! Z.to_nat c.2 = Some b ∧
           (b = true ↔ c ∈ Game.mines g).
Proof.
  intros Hwf Hc. pose proof Hc as [Hi Hj].
  destruct (lookup_lt_is_Some_2 (Game.board g) (Z.to_nat c.1)) as [row Hrow].
  { rewrite (wf_rows h w g Hwf). lia. }
  destruct (lookup_lt_is_Some_2 row (Z.to_nat c.2)) as [b Hb].
  { rewrite (wf_columns h w g Hwf row); [lia|]. by eapply list_elem_of_lookup_2. }
  exists row, b. split; [done|]. split; [done|].
  rewrite <- (wf_board h w g Hwf c Hc).
  by rewrite (board_at_lookup g c row b) by (done || lia).
Qed.

Lemma well_formed_empty h w :
  well_formed h w (Game.mk h w ∅ (Game.empty_board h w) ∅).
Proof.
  rewrite empty_board_replicate. split; simpl; try done.
  - apply length_replicate.
  - intros row [-> _]%elem_of_replicate. apply length_replicate.
  - intros c [Hi Hj]. unfold Minesweeper.board_at. simpl.
    rewrite lookup_replicate_2 by lia. simpl.
    rewrite lookup_replicate_2 by lia. simpl.
    split; [done|]. by intros ?%not_elem_of_empty.
Qed.

Lemma well_formed_place h w g c row :
  well_formed h w g → in_range h w c →
  Game.board g !! Z.to_nat c.1 = Some row →
  well_formed h w
    {| Game.height := Game.height g; Game.width := Game.width g;
       Game.mines := Game.mines g ∪ {[c]};
       Game.board := <[Z.to_nat c.1 := <[Z.to_nat c.2 := true]> row]> (Game.board g);
       Game.mines_found := Game.mines_found g |}.
Proof.
  intros Hwf Hc Hrow. pose proof Hc as [Hi Hj].
  destruct Hwf as [Hh Hw Hrows Hcols Hmines Hboard].
  assert (length row = Z.to_nat w) as Hlen.
  { apply Hcols. by eapply list_elem_of_lookup_2. }
  split; simpl; try done.
  - by rewrite length_insert.
  - intros row' [k Hk]%list_elem_of_lookup. rewrite list_lookup_insert in Hk.
    case_decide as Hik.
    + simplify_eq. by rewrite length_insert.
    + apply Hcols. by eapply list_elem_of_lookup_2.
  - intros d [Hd| ->%elem_of_singleton]%elem_of_union; [by apply Hmines|done].
  - intros d Hd. pose proof Hd as [Hdi Hdj].
    rewrite elem_of_union, elem_of_singleton, <- (Hboard d Hd).
    unfold Minesweeper.board_at. simpl.
    rewrite list_lookup_insert. case_decide as Hik.
    + destruct Hik as [Hik _]. apply Z2Nat.inj in Hik; [|lia|lia].
      simpl. rewrite list_lookup_insert. case_decide as Hjk.
      * destruct Hjk as [Hjk _]. apply Z2Nat.inj in Hjk; [|lia|lia].
        simpl. split; [intros _; right|done]. destruct c, d; simpl in *; congruence.
      * rewrite <- Hik, Hrow. simpl.
        assert (d ≠ c) as Hne.
        { intros ->. apply Hjk. split; [done|]. lia. }
        tauto.
    + assert (d ≠ c) as Hne.
      { intros ->. apply Hik. split; [done|]. lia. }
      tauto.
Qed.

(** What [add_mines] returns from a well-formed state, for draws that
    [randrange] can return. *)
Lemma add_mines_spec h w target draws g :
  well_formed h w g → Forall (in_range h w) draws →
  match Game.add_mines target draws g with
  | Game.Built g' =>
      well_formed h w g' ∧ Z.of_nat (size (Game.mines g')) = target ∧
      Game.mines_found g' = Game.mines_found g
  | Game.Drawing g' =>
      well_formed h w g' ∧ Z.of_nat (size (Game.mines g')) ≠ target ∧
      Game.mines_found g' = Game.mines_found g
  | Game.Raised e =>
      e = Game.ValueError ∧ (h ≤ 0 ∨ w ≤ 0) ∧ 0 ≠ target
  end.
Proof.
  intros Hwf Hdraws. revert g Hwf.
  induction Hdraws as [|c draws Hc _ IH]; intros g Hwf.
  - simpl. case_decide as Hsize; [done|]. case_decide as Hempty; [|done].
    split; [done|]. rewrite <- (wf_height h w g Hwf), <- (wf_width h w g Hwf).
    split; [done|]. intros <-. apply Hsize.
    assert (Game.mines g = ∅) as ->; [|by rewrite size_empty].
    apply set_eq. intros d. split; [|by intros ?%not_elem_of_empty].
    intros [? ?]%(wf_mines h w g Hwf).
    rewrite (wf_height h w g Hwf), (wf_width h w g Hwf) in Hempty. lia.
  - simpl. case_decide as Hsize; [done|].
    case_decide as Hempty.
    { destruct Hc as [? ?].
      rewrite (wf_height h w g Hwf), (wf_width h w g Hwf) in Hempty. lia. }
    destruct c as [i j].
    destruct (well_formed_lookup h w g (i, j) Hwf Hc) as (row & b & Hrow & Hb & _).
    simpl in Hrow, Hb. rewrite Hrow, Hb. destruct b.
    + by apply IH.
    + specialize (IH _ (well_formed_place h w g (i, j) row Hwf Hc Hrow)).
      simpl in IH. exact IH.
Qed.

End game.

Section game_bounds.
Implicit Types (g : Game.t) (c d : cell) (h w : Z).

Lemma size_list_to_set_le (l : list cell) :
  (size (list_to_set l : gset cell) ≤ length l)%nat.
Proof.
  induction l as [|x l IH].
  - rewrite list_to_set_nil, size_empty. done.
  - rewrite list_to_set_cons, size_union_alt, size_singleton. simpl.
    assert (size (list_to_set l ∖ {[x]} : gset cell) ≤ size (list_to_set l : gset cell))%nat.
    { apply subseteq_size. intros d. rewrite elem_of_difference. tauto. }
    lia.
Qed.

Lemma length_bind_const {A B} (f : A → list B) (m : nat) (l : list A) :
  (∀ x, length (f x) = m) → length (l ≫= f) = (length l * m)%nat.
Proof.
  intros Hf. induction l as [|x l IH]; [done|].
  change ((x :: l) ≫= f) with (f x ++ (l ≫= f)).
  rewrite length_app, Hf, IH. simpl. lia.
Qed.

Lemma well_formed_size h w g :
  well_formed h w g → (size (Game.mines g) ≤ Z.to_nat h * Z.to_nat w)%nat.
Proof.
  intros Hwf.
  set (grid := seqZ 0 h ≫= λ i, seqZ 0 w ≫= λ j, [(i, j)]).
  assert (length grid = (Z.to_nat h * Z.to_nat w)%nat) as <-.
  { unfold grid. rewrite (length_bind_const _ (Z.to_nat w)), length_seqZ; [done|].
    intros i. rewrite (length_bind_const _ 1%nat), length_seqZ; [lia|done]. }
  etrans; [|apply size_list_to_set_le]. apply subseteq_size.
  intros d [Hi Hj]%(wf_mines h w g Hwf).
  apply elem_of_list_to_set. unfold grid. apply list_elem_of_bind.
  exists d.1. split; [|apply elem_of_seqZ; lia].
  apply list_elem_of_bind. exists d.2. split; [|apply elem_of_seqZ; lia].
  apply list_elem_of_singleton. by destruct d.
Qed.

Lemma getitem_wrap {A} (l : list A) (n i : Z) :
  length l = Z.to_nat n →
  Game.getitem l i =
    if decide (- n ≤ i < n) then Py.getitem l (Z.to_nat (i `mod` n))
    else Raise IndexError.
Proof.
  intros Hlen. unfold Game.getitem.
  destruct (decide (0 ≤ i)) as [Hi|Hi].
  - case_decide as Hr.
    + by rewrite Z.mod_small by lia.
    + unfold Py.getitem. rewrite lookup_ge_None_2; [done|]. lia.
  - destruct (decide (- Z.of_nat (length l) ≤ i)) as [Hlo|Hlo].
    + rewrite decide_True by lia. do 2 f_equal.
      rewrite <- (Z.mod_add i 1 n) by lia. rewrite Z.mod_small by lia. lia.
    + rewrite decide_False; [done|]. lia.
Qed.

End game_bounds.

(** X16. For draws that [randrange] can return, the constructor
    [Minesweeper(height, width, mines)] raises nothing but the
    [ValueError] of an empty range, and only when a mine is asked for on a
    board without cells; while it runs and when it returns, the field has
    [height] rows of [width] entries and is [True] exactly at the cells of
    [self.mines], which are cells of the field; when it returns,
    [self.mines] has exactly [mines] cells and [mines_found] is empty. *)
Theorem game_init_spec (h w n : Z) (draws : list cell) :
  Forall (in_range h w) draws →
  match Game.init h w n draws with
  | Game.Built g =>
      well_formed h w g ∧ Z.of_nat (size (Game.mines g)) = n ∧
      Game.mines_found g = ∅
  | Game.Drawing g =>
      well_formed h w g ∧ Z.of_nat (size (Game.mines g)) ≠ n
  | Game.Raised e =>
      e = Game.ValueError ∧ (h ≤ 0 ∨ w ≤ 0) ∧ n ≠ 0
  end.
Proof.
  intros Hdraws. unfold Game.init.
  pose proof (add_mines_spec h w n draws _ (well_formed_empty h w) Hdraws) as H.
  destruct (Game.add_mines n draws _) as [g|g|e]; simpl in H.
  - done.
  - tauto.
  - destruct H as (? & ? & ?). done.
Qed.

Lemma game_init_spec_witness :
  match Game.init 2 2 2 [(0, 0); (0, 0); (1, 1)] with
  | Game.Built g =>
      well_formed 2 2 g ∧ Z.of_nat (size (Game.mines g)) = 2 ∧
      Game.mines_found g = ∅
  | Game.Drawing g =>
      well_formed 2 2 g ∧ Z.of_nat (size (Game.mines g)) ≠ 2
  | Game.Raised e =>
      e = Game.ValueError ∧ (2 ≤ 0 ∨ 2 ≤ 0) ∧ 2 ≠ 0
  end.
Proof.
  apply (game_init_spec 2 2 2 [(0, 0); (0, 0); (1, 1)]).
  repeat constructor; simpl; lia.
Defined.

(** X17. The constructor cannot return when it is asked for a negative
    number of mines or for more mines than the board has cells: whatever
    [randrange] draws, the loop is still running or [ValueError] was
    raised. *)
Theorem game_init_never_returns (h w n : Z) (draws : list cell) (g : Game.t) :
  n < 0 ∨ Z.max h 0 * Z.max w 0 < n →
  Forall (in_range h w) draws →
  Game.init h w n draws ≠ Game.Built g.
Proof.
  intros Hn Hdraws Hbuilt. unfold Game.init in Hbuilt.
  pose proof (add_mines_spec h w n draws _ (well_formed_empty h w) Hdraws) as H.
  rewrite Hbuilt in H. destruct H as (Hwf & Hsize & _).
  pose proof (well_formed_size h w g Hwf) as Hle.
  assert (Z.of_nat (Z.to_nat h * Z.to_nat w) = Z.max h 0 * Z.max w 0) as Hmul.
  { rewrite Nat2Z.inj_mul.
    replace (Z.of_nat (Z.to_nat h)) with (Z.max h 0) by lia.
    replace (Z.of_nat (Z.to_nat w)) with (Z.max w 0) by lia. done. }
  lia.
Qed.

Lemma game_init_never_returns_witness :
  Game.init 1 1 2 [(0, 0); (0, 0)] ≠ Game.Built (Game.mk 1 1 {[(0, 0)]} [[true]] ∅).
Proof.
  apply (game_init_never_returns 1 1 2 [(0, 0); (0, 0)]).
  - simpl. lia.
  - repeat constructor; simpl; lia.
Defined.

(** X18. On a well-formed game, [is_mine(cell)] tells whether the cell is
    in [self.mines] for a cell of the board; an index from [-height] (or
    [-width]) up to -1 counts from the end, so [is_mine((-1, -1))] tells
    about the last cell; every other index raises [IndexError]. *)
Theorem is_mine_spec (h w : Z) (g : Game.t) (c : cell) :
  well_formed h w g →
  Game.is_mine g c =
    if decide ((- h ≤ c.1 < h) ∧ (- w ≤ c.2 < w))
    then Return (bool_decide ((c.1 `mod` h, c.2 `mod` w) ∈ Game.mines g))
    else Raise IndexError.
Proof.
  intros Hwf. unfold Game.is_mine.
  rewrite (getitem_wrap (Game.board g) h c.1) by apply (wf_rows h w g Hwf).
  destruct (decide (- h ≤ c.1 < h)) as [Hi|Hi]; [|by rewrite decide_False by tauto].
  pose proof (Z.mod_pos_bound c.1 h ltac:(lia)) as Hmi.
  destruct (lookup_lt_is_Some_2 (Game.board g) (Z.to_nat (c.1 `mod` h))) as [row Hrow].
  { rewrite (wf_rows h w g Hwf). lia. }
  unfold Py.getitem at 1. rewrite Hrow.
  rewrite (getitem_wrap row w c.2)
    by (apply (wf_columns h w g Hwf); by eapply list_elem_of_lookup_2).
  destruct (decide (- w ≤ c.2 < w)) as [Hj|Hj]; [|by rewrite decide_False by tauto].
  rewrite decide_True by done.
  pose proof (Z.mod_pos_bound c.2 w ltac:(lia)) as Hmj.
  destruct (well_formed_lookup h w g (c.1 `mod` h, c.2 `mod` w) Hwf)
    as (row' & b & Hrow' & Hb & Hiff); [done|].
  simpl in Hrow', Hb. assert (row' = row) as -> by congruence.
  unfold Py.getitem. rewrite Hb. f_equal.
  destruct b.
  - symmetry. apply bool_decide_eq_true. by apply Hiff.
  - symmetry. apply bool_decide_eq_false. intros Hin. by apply Hiff in Hin.
Qed.

Lemma is_mine_spec_witness :
  let g := Game.mk 2 2 {[(1, 1)]} [[false; false]; [false; true]] ∅ in
  Game.is_mine g (-1, -1) =
    if decide ((- 2 ≤ (-1, -1).1 < 2) ∧ (- 2 ≤ (-1, -1).2 < 2))
    then Return (bool_decide (((-1, -1).1 `mod` 2, (-1, -1).2 `mod` 2) ∈ Game.mines g))
    else Raise IndexError.
Proof.
  intros g. apply (is_mine_spec 2 2 g (-1, -1)).
  pose proof (add_mines_spec 2 2 1 [(1, 1)] _ (well_formed_empty 2 2)) as H.
  simpl in H. apply H. repeat constructor; simpl; lia.
Defined.

(** X19. On a well-formed game, [nearby_mines(cell)] is the number of
    cells of [self.mines] within one row and one column of the cell, the
    cell itself left out. *)
Theorem nearby_mines_counts_mines (h w : Z) (g : Game.t) (c : cell) :
  well_formed h w g →
  Minesweeper.nearby_mines (Game.to_minesweeper g) c =
    Z.of_nat (size (filter (λ d, near c d ∧ d ≠ c) (Game.mines g))).
Proof.
  intros Hwf. rewrite nearby_mines_count.
  rewrite <- (size_filter_list_to_set _ _ (NoDup_block c)). do 2 f_equal.
  apply set_eq. intros d.
  rewrite !elem_of_filter, elem_of_list_to_set, elem_of_block. simpl.
  rewrite (wf_height h w g Hwf), (wf_width h w g Hwf).
  unfold near, mine_at. split.
  - intros [(Hne & Hb & Hm) Hnear]. split; [done|].
    by apply (wf_board h w g Hwf d Hb).
  - intros [[Hnear Hne] Hin].
    pose proof (wf_mines h w g Hwf d Hin) as Hb.
    split; [|done]. split; [done|]. split; [done|].
    by apply (wf_board h w g Hwf d Hb).
Qed.

Lemma nearby_mines_counts_mines_witness :
  let g := Game.mk 2 2 {[(1, 1)]} [[false; false]; [false; true]] ∅ in
  Minesweeper.nearby_mines (Game.to_minesweeper g) (0, 0) =
    Z.of_nat (size (filter (λ d, near (0, 0) d ∧ d ≠ (0, 0)) (Game.mines g))).
Proof.
  intros g. apply (nearby_mines_counts_mines 2 2 g (0, 0)).
  pose proof (add_mines_spec 2 2 1 [(1, 1)] _ (well_formed_empty 2 2)) as H.
  simpl in H. apply H. repeat constructor; simpl; lia.
Defined.

(** X20. A game the constructor returns is won from the start exactly when
    it was asked for no mines: [mines_found] starts empty and [won]
    compares it with [self.mines]. *)
Theorem fresh_game_won (h w n : Z) (draws : list cell) (g : Game.t) :
  Forall (in_range h w) draws →
  Game.init h w n draws = Game.Built g →
  (Game.won g = true ↔ n = 0).
Proof.
  intros Hdraws Hbuilt. unfold Game.init in Hbuilt.
  pose proof (add_mines_spec h w n draws _ (well_formed_empty h w) Hdraws) as H.
  rewrite Hbuilt in H. destruct H as (_ & Hsize & Hfound). simpl in Hfound.
  unfold Game.won. rewrite bool_decide_eq_true, Hfound. split.
  - intros Heq. rewrite <- Heq, size_empty in Hsize. lia.
  - intros Hn. symmetry. apply leibniz_equiv, size_empty_inv. lia.
Qed.

Lemma fresh_game_won_witness :
  Game.won (Game.mk 2 2 ∅ [[false; false]; [false; false]] ∅) = true ↔ 0 = 0.
Proof.
  apply (fresh_game_won 2 2 0 [] (Game.mk 2 2 ∅ [[false; false]; [false; false]] ∅)).
  - constructor.
  - vm_compute. reflexivity.
Defined.

(** * Further properties of marking *)

Section marking.
Implicit Types (st : AI.t) (s : Sentence.t) (c d : cell).

Lemma sentence_mark_mine_safe_comm c d s :
  c ≠ d →
  Sentence.mark_mine c (Sentence.mark_safe d s) =
  Sentence.mark_safe d (Sentence.mark_mine c s).
Proof.
  intros Hne.
  destruct (decide (d ∈ Sentence.cells s)) as [Hd|Hd],
           (decide (c ∈ Sentence.cells s)) as [Hc|Hc].
  - rewrite (sentence_mark_safe_in s d), (sentence_mark_mine_in s c) by done.
    rewrite sentence_mark_mine_in, sentence_mark_safe_in
      by (simpl; rewrite elem_of_difference, elem_of_singleton; split; congruence).
    simpl. f_equal. clear. set_solver.
  - rewrite (sentence_mark_mine_notin s c) by done.
    apply sentence_mark_mine_notin. rewrite sentence_mark_safe_cells.
    rewrite elem_of_difference. tauto.
  - rewrite (sentence_mark_safe_notin s d) by done.
    symmetry. apply sentence_mark_safe_notin. rewrite sentence_mark_mine_cells.
    rewrite elem_of_difference. tauto.
  - rewrite (sentence_mark_safe_notin s d) by done.
    rewrite (sentence_mark_mine_notin s c) by done.
    by rewrite (sentence_mark_safe_notin s d).
Qed.

Lemma mark_from_sentence_nothing_known i st :
  (∀ s, s ∈ AI.knowledge st →
        (Sentence.known_safes s = None ∨ Sentence.known_safes s = Some ∅) ∧
        (Sentence.known_mines s = None ∨ Sentence.known_mines s = Some ∅)) →
  AI.mark_from_sentence i st = st.
Proof.
  intros Hkb. unfold AI.mark_from_sentence.
  destruct (AI.knowledge st !! i) as [s|] eqn:Hs; [|done].
  destruct (Hkb s) as [Hsafe Hmine]; [by eapply list_elem_of_lookup_2|].
  assert (match Sentence.known_safes s with
          | Some X => AI.mark_safe_cells (elements X) st
          | None => st
          end = st) as ->.
  { destruct Hsafe as [->| ->]; [done|]. by rewrite elements_empty. }
  rewrite Hs. destruct Hmine as [->| ->]; [done|]. by rewrite elements_empty.
Qed.

End marking.

(** X21. Marks of different cells can be made in either order:
    [mark_mine(c)] after [mark_safe(d)] gives the state that [mark_safe(d)]
    after [mark_mine(c)] gives, for [c] other than [d]. *)
Theorem mark_mine_mark_safe_commute (c d : cell) (st : AI.t) :
  c ≠ d →
  AI.mark_mine c (AI.mark_safe d st) = AI.mark_safe d (AI.mark_mine c st).
Proof.
  intros Hne. unfold AI.mark_mine, AI.mark_safe. simpl. f_equal.
  rewrite <- !list_fmap_compose. apply list_fmap_ext. intros _ s _. simpl.
  by apply sentence_mark_mine_safe_comm.
Qed.

Lemma mark_mine_mark_safe_commute_witness :
  let st := AI.add_knowledge (0, 0) 1 (AI.init 3 3) in
  AI.mark_mine (0, 1) (AI.mark_safe (1, 1) st) =
  AI.mark_safe (1, 1) (AI.mark_mine (0, 1) st).
Proof.
  intros st. apply (mark_mine_mark_safe_commute (0, 1) (1, 1) st). discriminate.
Defined.



(** X23. When no sentence of the base determines a cell ([known_safes] and
    [known_mines] return nothing, or the empty set), the marking loop of
    [add_knowledge] leaves the state exactly as it is. *)
Theorem marking_loop_fixed_point (st : AI.t) :
  (∀ s, s ∈ AI.knowledge st →
        (Sentence.known_safes s = None ∨ Sentence.known_safes s = Some ∅) ∧
        (Sentence.known_mines s = None ∨ Sentence.known_mines s = Some ∅)) →
  AI.mark_additional_cells st = st.
Proof.
  intros Hkb. unfold AI.mark_additional_cells.
  apply (foldl_invariant (λ st', st' = st) (λ _, True)); [|by apply Forall_true|done].
  intros st' i _ ->. by apply mark_from_sentence_nothing_known.
Qed.

Lemma marking_loop_fixed_point_witness :
  let st := AI.add_knowledge (0, 0) 1 (AI.init 3 3) in
  AI.mark_additional_cells st = st.
Proof.
  intros st. apply (marking_loop_fixed_point st).
  intros s Hs. vm_compute in Hs.
  apply elem_of_cons in Hs as [->|Hs].
  - split; left; vm_compute; reflexivity.
  - apply list_elem_of_singleton in Hs as ->.
    split; right; vm_compute; reflexivity.
Defined.

(** * Tic-tac-toe *)

Section ttt_counts.
Implicit Types (b : TTT.board) (row l : list TTT.square) (n : TTT.counts)
  (v cell : TTT.square).

Lemma count_in_cons v cell l :
  count_in v (cell :: l) = ((if decide (cell = v) then 1 else 0) + count_in v l)%nat.
Proof. unfold count_in. rewrite filter_cons. by case_decide. Qed.

Lemma count_in_app v l1 l2 :
  count_in v (l1 ++ l2) = (count_in v l1 + count_in v l2)%nat.
Proof. unfold count_in. by rewrite filter_app, length_app. Qed.

Lemma count_row_foldl row n :
  foldl TTT.count_cell n row =
  TTT.mk_counts
    (TTT.cell_count n + length row)
    (TTT.x_count n + count_in (Some TTT.X) row)
    (TTT.o_count n + count_in (Some TTT.O) row)
    (TTT.empty_count n + count_in None row).
Proof.
  revert n. induction row as [|cell row IH]; intros n; simpl.
  - destruct n. unfold count_in. simpl. f_equal; lia.
  - rewrite IH, !count_in_cons.
    destruct cell as [[|]|]; simpl; repeat case_decide; try done; f_equal; lia.
Qed.

Lemma count_board_foldl b n :
  foldl (λ n row, foldl TTT.count_cell n row) n b =
  TTT.mk_counts
    (TTT.cell_count n + length (concat b))
    (TTT.x_count n + count_of (Some TTT.X) b)
    (TTT.o_count n + count_of (Some TTT.O) b)
    (TTT.empty_count n + count_of None b).
Proof.
  unfold count_of. revert n. induction b as [|row b IH]; intros n; simpl.
  - destruct n. unfold count_in. simpl. f_equal; lia.
  - rewrite IH, count_row_foldl. simpl.
    rewrite !count_in_app, length_app. f_equal; lia.
Qed.

Lemma count_board_spec b :
  TTT.count_board b =
  TTT.mk_counts (length (concat b)) (count_of (Some TTT.X) b)
                (count_of (Some TTT.O) b) (count_of None b).
Proof. unfold TTT.count_board. by rewrite count_board_foldl. Qed.

Lemma count_in_total l :
  length l = (count_in (Some TTT.X) l + count_in (Some TTT.O) l + count_in None l)%nat.
Proof.
  induction l as [|cell l IH]; [done|].
  rewrite !count_in_cons. simpl. rewrite IH.
  destruct cell as [[|]|]; repeat case_decide; try done; lia.
Qed.

Lemma count_of_total b :
  length (concat b) =
  (count_of (Some TTT.X) b + count_of (Some TTT.O) b + count_of None b)%nat.
Proof. apply count_in_total. Qed.

End ttt_counts.

(** X24. [player] returns [None] exactly when the board has no empty
    square or has more O's than X's, X exactly when it has an empty square
    and as many X's as O's, and O exactly when it has an empty square and
    more X's than O's; [terminal] is [True] exactly when [player] returns
    [None], whether or not a line of three is on the board. *)
Theorem player_terminal_spec (b : TTT.board) :
  (TTT.player b = None ↔
     count_of None b = 0%nat ∨ (count_of (Some TTT.X) b < count_of (Some TTT.O) b)%nat) ∧
  (TTT.player b = Some TTT.X ↔
     count_of None b ≠ 0%nat ∧ count_of (Some TTT.X) b = count_of (Some TTT.O) b) ∧
  (TTT.player b = Some TTT.O ↔
     count_of None b ≠ 0%nat ∧ (count_of (Some TTT.O) b < count_of (Some TTT.X) b)%nat) ∧
  (TTT.terminal b = true ↔
     count_of None b = 0%nat ∨ (count_of (Some TTT.X) b < count_of (Some TTT.O) b)%nat).
Proof.
  unfold TTT.terminal, TTT.player. rewrite count_board_spec. simpl.
  pose proof (count_of_total b) as Htotal.
  repeat case_decide; repeat split; intros; try done; try lia; try (exfalso; lia).
Qed.

(** * The inference pass, pair by pair *)

Section pair_by_pair.
Implicit Types (s A B : Sentence.t) (kb l acc : list Sentence.t).

Lemma subset_loop_pairs kb A l acc :
  foldl (AI.subset_step kb A) acc l = acc ++ (l ≫= pair_yield kb A).
Proof.
  revert acc. induction l as [|B l IH]; intros acc.
  - simpl. by rewrite app_nil_r.
  - change ((B :: l) ≫= pair_yield kb A)
      with (pair_yield kb A B ++ (l ≫= pair_yield kb A)).
    simpl. rewrite IH, app_assoc. f_equal.
    unfold AI.subset_step, pair_yield. fold (difference A B).
    destruct (decide (Sentence.cells B ⊆ Sentence.cells A)) as [Hsub|Hsub].
    + destruct (decide (difference A B ∉ kb)) as [Hnew|Hold].
      * by rewrite decide_True by done.
      * rewrite decide_False by tauto. by rewrite app_nil_r.
    + rewrite decide_False by tauto. by rewrite app_nil_r.
Qed.

Lemma superset_loop_pairs kb l acc :
  foldl (λ acc super, foldl (AI.subset_step kb super) acc kb) acc l =
  acc ++ (l ≫= λ A, kb ≫= pair_yield kb A).
Proof.
  revert acc. induction l as [|A l IH]; intros acc.
  - simpl. by rewrite app_nil_r.
  - change ((A :: l) ≫= λ A, kb ≫= pair_yield kb A)
      with ((kb ≫= pair_yield kb A) ++ (l ≫= λ A, kb ≫= pair_yield kb A)).
    simpl. by rewrite IH, subset_loop_pairs, app_assoc.
Qed.

End pair_by_pair.

(** X25. The sentences one inference pass appends are, in the order of
    the two loops, one sentence for every ordered pair [(A, B)] of sentences
    of the base with [B.cells ⊆ A.cells] whose sentence
    [(A.cells - B.cells, A.count - B.count)] is not in the base as the pass
    found it; a sentence that several pairs yield is appended once for each
    of them. *)
Theorem new_sentences_pair_by_pair (kb : list Sentence.t) :
  AI.new_sentences kb = kb ≫= λ A, kb ≫= λ B, pair_yield kb A B.
Proof. unfold AI.new_sentences. by rewrite superset_loop_pairs. Qed.
